(** * Malla curricular: the prerequisite engine of [script.js]

    A shallow embedding of the page script: the browser objects it talks to
    ([localStorage], [JSON], the elements of the [document]) and its four
    functions [cargarRamosAprobados], [guardarRamosAprobados],
    [actualizarEstadoVisual] and [manejarClicRamo], followed by the
    properties of the prerequisite engine. *)

From Stdlib Require Import String Ascii NArith.
From stdpp Require Import base option list gmap.

(** ** JavaScript strings

    A JavaScript string is a sequence of UTF-16 code units.  A code unit is
    modelled by its numeric value; the model does not bound it, so every
    JavaScript string is a [JSString]. *)

Abbreviation JSString := (list N).

Definition js (s : string) : JSString := N_of_ascii <$> list_ascii_of_string s.

(** [Boolean(s)] for a string: only the empty string is falsy. *)
Definition truthy (s : JSString) : bool :=
  match s with [] => false | _ :: _ => true end.

Definition JSString_eqb (a b : JSString) : bool := bool_decide (a = b).

(** [String.prototype.split] with a one-unit separator.  The result is never
    empty: splitting the empty string gives one empty string. *)
Fixpoint split (sep : N) (s : JSString) : list JSString :=
  match s with
  | [] => [[]]
  | c :: s1 =>
      if (c =? sep)%N then [] :: split sep s1
      else match split sep s1 with
           | w :: ws => (c :: w) :: ws
           | [] => [[c]]
           end
  end.

(** [Array.prototype.join] on an array of strings. *)
Fixpoint join (sep : JSString) (l : list JSString) : JSString :=
  match l with
  | [] => []
  | [s] => s
  | s :: rest => s ++ sep ++ join sep rest
  end.

(** [String.prototype.includes]: [x] occurs in [s] as a substring. *)
Fixpoint is_prefix (x s : JSString) : bool :=
  match x, s with
  | [], _ => true
  | a :: x1, b :: s1 => (a =? b)%N && is_prefix x1 s1
  | _ :: _, [] => false
  end.

Fixpoint is_substring (x s : JSString) : bool :=
  is_prefix x s || match s with [] => false | _ :: s1 => is_substring x s1 end.

(** ** JSON

    The values [JSON.parse] can produce.  A number is kept as the text of its
    token and an object as its members in the order read, and this is how
    [JSON.stringify] writes them back: the script never looks inside either,
    and what is proved below is about arrays of strings. *)

#[warnings="-register-all"]
Inductive JSValue :=
| JNull
| JBool (b : bool)
| JNum (lexeme : JSString)
| JStr (s : JSString)
| JArr (elements : list JSValue)
| JObj (members : list (JSString * JSValue)).

Module JSON.

(** *** [JSON.stringify] *)

Definition hex_digit (d : N) : N :=
  if (d <? 10)%N then (48 + d)%N else (87 + d)%N.

Definition UnicodeEscape (c : N) : JSString :=
  [92; 117; hex_digit (c / 4096 mod 16); hex_digit (c / 256 mod 16);
   hex_digit (c / 16 mod 16); hex_digit (c mod 16)]%N.

Definition is_lead (c : N) : bool := (55296 <=? c)%N && (c <=? 56319)%N.
Definition is_trail (c : N) : bool := (56320 <=? c)%N && (c <=? 57343)%N.

(** One code unit that is not part of a surrogate pair. *)
Definition escape_unit (c : N) : JSString :=
  if (c =? 8)%N then [92; 98]%N
  else if (c =? 9)%N then [92; 116]%N
  else if (c =? 10)%N then [92; 110]%N
  else if (c =? 12)%N then [92; 102]%N
  else if (c =? 13)%N then [92; 114]%N
  else if (c =? 34)%N then [92; 34]%N
  else if (c =? 92)%N then [92; 92]%N
  else if (c <? 32)%N || is_lead c || is_trail c then UnicodeEscape c
  else [c].

(** A lead surrogate followed by a trail surrogate is one code point and is
    written as it is; every other unit goes through [escape_unit]. *)
Fixpoint quote_body (s : JSString) : JSString :=
  match s with
  | [] => []
  | c :: s1 =>
      match s1 with
      | d :: s2 =>
          if is_lead c && is_trail d then c :: d :: quote_body s2
          else escape_unit c ++ quote_body s1
      | [] => escape_unit c
      end
  end.

Definition QuoteJSONString (s : JSString) : JSString :=
  (34 :: quote_body s ++ [34])%N.

Fixpoint commas (l : list JSString) : JSString :=
  match l with
  | [] => []
  | [s] => s
  | s :: rest => s ++ 44%N :: commas rest
  end.

Fixpoint stringify (v : JSValue) : JSString :=
  match v with
  | JNull => js "null"
  | JBool true => js "true"
  | JBool false => js "false"
  | JNum lexeme => lexeme
  | JStr s => QuoteJSONString s
  | JArr l => 91%N :: commas (map stringify l) ++ [93%N]
  | JObj ms =>
      123%N :: commas (map (λ m, QuoteJSONString m.1 ++ 58%N :: stringify m.2) ms)
        ++ [125%N]
  end.

(** *** [JSON.parse]: the lexer *)

Inductive Token :=
| TLBracket | TRBracket | TLBrace | TRBrace | TComma | TColon
| TStr (s : JSString)
| TAtom (v : JSValue).

Definition is_ws (c : N) : bool :=
  (c =? 32)%N || (c =? 9)%N || (c =? 10)%N || (c =? 13)%N.

Definition is_digit (c : N) : bool := (48 <=? c)%N && (c <=? 57)%N.

(** The units a literal or a number is made of. *)
Definition is_atom_unit (c : N) : bool :=
  is_digit c || ((97 <=? c)%N && (c <=? 122)%N) || ((65 <=? c)%N && (c <=? 90)%N)
  || (c =? 43)%N || (c =? 45)%N || (c =? 46)%N.

Definition unhex (c : N) : option N :=
  if is_digit c then Some (c - 48)%N
  else if (97 <=? c)%N && (c <=? 102)%N then Some (c - 87)%N
  else if (65 <=? c)%N && (c <=? 70)%N then Some (c - 55)%N
  else None.

Definition unhex4 (h1 h2 h3 h4 : N) : option N :=
  d1 ← unhex h1; d2 ← unhex h2; d3 ← unhex h3; d4 ← unhex h4;
  Some (4096 * d1 + 256 * d2 + 16 * d3 + d4)%N.

Definition unescape (e : N) : option N :=
  if (e =? 34)%N then Some 34%N
  else if (e =? 92)%N then Some 92%N
  else if (e =? 47)%N then Some 47%N
  else if (e =? 98)%N then Some 8%N
  else if (e =? 102)%N then Some 12%N
  else if (e =? 110)%N then Some 10%N
  else if (e =? 114)%N then Some 13%N
  else if (e =? 116)%N then Some 9%N
  else None.

Fixpoint drop_digits (s : JSString) : JSString :=
  match s with
  | c :: s1 => if is_digit c then drop_digits s1 else s
  | [] => []
  end.

(** exponent part, or nothing *)
Definition exponent_ok (s : JSString) : bool :=
  match s with
  | [] => true
  | e :: s1 =>
      ((e =? 101)%N || (e =? 69)%N) &&
      let s2 := match s1 with
                | g :: r => if (g =? 43)%N || (g =? 45)%N then r else s1
                | [] => s1
                end in
      match s2 with
      | d :: _ => is_digit d && bool_decide (drop_digits s2 = [])
      | [] => false
      end
  end.

(** fraction part, if any, then the exponent part *)
Definition fraction_ok (s : JSString) : bool :=
  match s with
  | c :: s1 =>
      if (c =? 46)%N then
        match s1 with
        | d :: _ => is_digit d && exponent_ok (drop_digits s1)
        | [] => false
        end
      else exponent_ok s
  | [] => true
  end.

(** The JSON number grammar: an optional minus; a zero, or a non-zero digit
    and more digits; an optional point with digits; an optional exponent. *)
Definition number_ok (s : JSString) : bool :=
  let s1 := match s with
            | c :: r => if (c =? 45)%N then r else s
            | [] => s
            end in
  match s1 with
  | d :: r =>
      is_digit d && fraction_ok (if (d =? 48)%N then r else drop_digits r)
  | [] => false
  end.

Definition classify_atom (a : JSString) : option JSValue :=
  if JSString_eqb a (js "true") then Some (JBool true)
  else if JSString_eqb a (js "false") then Some (JBool false)
  else if JSString_eqb a (js "null") then Some JNull
  else if number_ok a then Some (JNum a)
  else None.

Definition punctuation (c : N) : option Token :=
  if (c =? 91)%N then Some TLBracket
  else if (c =? 93)%N then Some TRBracket
  else if (c =? 123)%N then Some TLBrace
  else if (c =? 125)%N then Some TRBrace
  else if (c =? 44)%N then Some TComma
  else if (c =? 58)%N then Some TColon
  else None.

(** The lexer is between tokens, inside a string (with the units read so
    far), or inside a literal or number. *)
Inductive LexState :=
| LexDefault
| LexString (acc : JSString)
| LexAtom (acc : JSString).

Definition atom_so_far (st : LexState) : JSString :=
  match st with LexAtom acc => acc | _ => [] end.

(** The token that ends when a unit outside literals and numbers is read. *)
Definition flush (st : LexState) : option (list Token) :=
  match st with
  | LexDefault => Some []
  | LexAtom acc => v ← classify_atom acc; Some [TAtom v]
  | LexString _ => None
  end.

Fixpoint lex (st : LexState) (s : JSString) {struct s} : option (list Token) :=
  match st with
  | LexString acc =>
      match s with
      | [] => None
      | c :: s1 =>
          if (c =? 34)%N then ts ← lex LexDefault s1; Some (TStr acc :: ts)
          else if (c =? 92)%N then
            match s1 with
            | [] => None
            | e :: s2 =>
                if (e =? 117)%N then
                  match s2 with
                  | h1 :: h2 :: h3 :: h4 :: s6 =>
                      u ← unhex4 h1 h2 h3 h4; lex (LexString (acc ++ [u])) s6
                  | _ => None
                  end
                else u ← unescape e; lex (LexString (acc ++ [u])) s2
            end
          else if (c <? 32)%N then None
          else lex (LexString (acc ++ [c])) s1
      end
  | _ =>
      match s with
      | [] => flush st
      | c :: s1 =>
          if is_atom_unit c then lex (LexAtom (atom_so_far st ++ [c])) s1
          else
            pre ← flush st;
            ts ← (if is_ws c then lex LexDefault s1
                  else if (c =? 34)%N then lex (LexString []) s1
                  else t ← punctuation c; ts ← lex LexDefault s1; Some (t :: ts));
            Some (pre ++ ts)
      end
  end.

(** *** [JSON.parse]: the grammar, over tokens *)

(** An open array with its elements so far (last first), an open object
    with its members so far, or an open object whose next value belongs
    to [key]. *)
Inductive Frame :=
| FArr (acc : list JSValue)
| FObj (acc : list (JSString * JSValue))
| FObjKey (acc : list (JSString * JSValue)) (key : JSString).

Inductive Expect :=
| ExpValue          (* a value *)
| ExpValueOrEnd     (* right after [[]: a value or the closing bracket *)
| ExpKeyOrEnd       (* right after [{]: a key or the closing brace *)
| ExpKey            (* after a comma in an object *)
| ExpColon
| ExpCommaOrEnd     (* after a value inside an array or object *)
| Done (v : JSValue).

Definition PState : Type := list Frame * Expect.

(** A value is complete: it is the whole text, or goes into the innermost
    open array or object. *)
Definition reduce (v : JSValue) (stack : list Frame) : option PState :=
  match stack with
  | [] => Some ([], Done v)
  | FArr acc :: st => Some (FArr (v :: acc) :: st, ExpCommaOrEnd)
  | FObjKey acc k :: st => Some (FObj ((k, v) :: acc) :: st, ExpCommaOrEnd)
  | FObj _ :: _ => None
  end.

Definition begin_value (t : Token) (stack : list Frame) : option PState :=
  match t with
  | TStr s => reduce (JStr s) stack
  | TAtom v => reduce v stack
  | TLBracket => Some (FArr [] :: stack, ExpValueOrEnd)
  | TLBrace => Some (FObj [] :: stack, ExpKeyOrEnd)
  | _ => None
  end.

Definition begin_key (t : Token) (stack : list Frame) : option PState :=
  match t, stack with
  | TStr k, FObj acc :: st => Some (FObjKey acc k :: st, ExpColon)
  | _, _ => None
  end.

Definition close (t : Token) (stack : list Frame) : option PState :=
  match t, stack with
  | TRBracket, FArr acc :: st => reduce (JArr (rev acc)) st
  | TRBrace, FObj acc :: st => reduce (JObj (rev acc)) st
  | _, _ => None
  end.

Definition step (ps : PState) (t : Token) : option PState :=
  let '(stack, e) := ps in
  match e with
  | ExpValue => begin_value t stack
  | ExpValueOrEnd =>
      match t with TRBracket => close t stack | _ => begin_value t stack end
  | ExpKeyOrEnd =>
      match t with TRBrace => close t stack | _ => begin_key t stack end
  | ExpKey => begin_key t stack
  | ExpColon => match t with TColon => Some (stack, ExpValue) | _ => None end
  | ExpCommaOrEnd =>
      match t, stack with
      | TComma, FArr _ :: _ => Some (stack, ExpValue)
      | TComma, FObj _ :: _ => Some (stack, ExpKey)
      | _, _ => close t stack
      end
  | Done _ => None
  end.

Fixpoint run (ps : PState) (ts : list Token) : option PState :=
  match ts with
  | [] => Some ps
  | t :: ts1 => ps1 ← step ps t; run ps1 ts1
  end.

(** [None] stands for the [SyntaxError] that [JSON.parse] throws. *)
Definition parse (text : JSString) : option JSValue :=
  ts ← lex LexDefault text;
  ps ← run ([], ExpValue) ts;
  match ps with
  | ([], Done v) => Some v
  | _ => None
  end.

End JSON.


(** ** Completions and effects

    A call either returns or throws.  What it did to the state before it
    threw stays done, so the state is threaded through both outcomes. *)

Inductive JSError := SyntaxError | TypeError.

Inductive Completion (A : Type) :=
| Returned (a : A)
| Thrown (e : JSError).
Arguments Returned {A} a.
Arguments Thrown {A} e.

Definition SE (S A : Type) : Type := S → Completion A * S.

Section StateError.
Context {S : Type}.

Definition ret {A} (a : A) : SE S A := λ s, (Returned a, s).

Definition throw {A} (e : JSError) : SE S A := λ s, (Thrown e, s).

Definition bind {A B} (m : SE S A) (k : A → SE S B) : SE S B :=
  λ s, match m s with
       | (Returned a, s1) => k a s1
       | (Thrown e, s1) => (Thrown e, s1)
       end.

Definition gets {A} (f : S → A) : SE S A := λ s, (Returned (f s), s).

Definition modify (f : S → S) : SE S unit := λ s, (Returned tt, f s).

(** a computation that has no effect on the state *)
Definition lift {A} (c : Completion A) : SE S A := λ s, (c, s).
End StateError.

Notation "x ⇐ m ;; k" := (bind m (λ x, k))
  (at level 100, m at next level, right associativity,
   format "'[' x  ⇐  m ;;  '/' k ']'").
Notation "m ;;; k" := (bind m (λ _, k))
  (at level 100, right associativity, format "'[' m ;;;  '/' k ']'").

(** [Array.prototype.every], [filter] and [map] with a callback that has
    effects: elements are visited in order, and [every] stops at the first
    element that fails. *)
Fixpoint every {S A} (f : A → SE S bool) (l : list A) : SE S bool :=
  match l with
  | [] => ret true
  | x :: rest => b ⇐ f x;; if b then every f rest else ret false
  end.

Fixpoint filterA {S A} (f : A → SE S bool) (l : list A) : SE S (list A) :=
  match l with
  | [] => ret []
  | x :: rest =>
      b ⇐ f x;; kept ⇐ filterA f rest;; ret (if b then x :: kept else kept)
  end.

Fixpoint mapA {S A B} (f : A → SE S B) (l : list A) : SE S (list B) :=
  match l with
  | [] => ret []
  | x :: rest => y ⇐ f x;; ys ⇐ mapA f rest;; ret (y :: ys)
  end.

(** ** What the script calls on the value [JSON.parse] gave it

    [aprobados] is whatever was stored.  An array has [includes], [filter]
    and [push]; a string has [includes] only (a substring test); on any
    other value the call is a [TypeError]. *)

Definition same_string (x : JSString) (v : JSValue) : bool :=
  match v with JStr s => JSString_eqb s x | _ => false end.

Definition includes (v : JSValue) (x : JSString) : Completion bool :=
  match v with
  | JArr l => Returned (existsb (same_string x) l)
  | JStr s => Returned (is_substring x s)
  | _ => Thrown TypeError
  end.

(** [aprobados.filter(id => id !== ramoId)] *)
Definition filter_distinct (v : JSValue) (ramoId : JSString) : Completion JSValue :=
  match v with
  | JArr l => Returned (JArr (List.filter (λ x, negb (same_string ramoId x)) l))
  | _ => Thrown TypeError
  end.

(** [aprobados.push(ramoId)], giving the array after the call *)
Definition push (v : JSValue) (ramoId : JSString) : Completion JSValue :=
  match v with
  | JArr l => Returned (JArr (l ++ [JStr ramoId]))
  | _ => Thrown TypeError
  end.

(** ** The page *)

Record Element := {
  id : JSString;
  classList : list JSString;
  dataset_requisitos : option JSString;   (* the attribute [data-requisitos] *)
  textContent : JSString
}.

Record World := {
  document : list Element;                 (* in document order *)
  localStorage : gmap JSString JSString;
  alerts : list JSString                   (* the dialogs shown, oldest first *)
}.

(** [DOMTokenList] *)
Definition contains (cl : list JSString) (c : JSString) : bool :=
  bool_decide (c ∈ cl).

Definition add (cl : list JSString) (c : JSString) : list JSString :=
  if contains cl c then cl else cl ++ [c].

Definition remove (cl : list JSString) (c : JSString) : list JSString :=
  filter (λ x, x ≠ c) cl.

Definition classList_add (c : JSString) : SE Element unit :=
  modify (λ e, {| id := id e; classList := add (classList e) c;
                  dataset_requisitos := dataset_requisitos e;
                  textContent := textContent e |}).

Definition classList_remove (c : JSString) : SE Element unit :=
  modify (λ e, {| id := id e; classList := remove (classList e) c;
                  dataset_requisitos := dataset_requisitos e;
                  textContent := textContent e |}).

(** [localStorage.getItem]: [None] is the [null] of an absent key. *)
Definition getItem (k : JSString) : SE World (option JSString) :=
  gets (λ w, localStorage w !! k).

(** [localStorage.setItem]; the store is taken to have room, so the call
    always returns. *)
Definition setItem (k v : JSString) : SE World unit :=
  modify (λ w, {| document := document w;
                  localStorage := <[k := v]> (localStorage w);
                  alerts := alerts w |}).

Definition alert (msg : JSString) : SE World unit :=
  modify (λ w, {| document := document w;
                  localStorage := localStorage w;
                  alerts := alerts w ++ [msg] |}).

(** [document.getElementById]: the first element with that id; an element
    whose id is empty has none. *)
Definition getElementById (x : JSString) : SE World (option Element) :=
  gets (λ w, if truthy x then List.find (λ e, JSString_eqb (id e) x) (document w)
             else None).

Definition JSON_parse {S} (text : JSString) : SE S JSValue :=
  match JSON.parse text with
  | Some v => ret v
  | None => throw SyntaxError
  end.

(** ** The script *)

(** [document.querySelectorAll('.ramo')]: the elements the script works on.
    The script adds and removes two other classes only, so an element is
    in [ramos] for good or never. *)
Definition is_ramo (e : Element) : bool := contains (classList e) (js "ramo").

Definition LOCAL_STORAGE_KEY : JSString := js "ramosAprobados".

Definition cargarRamosAprobados : SE World JSValue :=
  ramosGuardados ⇐ getItem LOCAL_STORAGE_KEY;;
  match ramosGuardados with
  | Some text => if truthy text then JSON_parse text else ret (JArr [])
  | None => ret (JArr [])
  end.

Definition guardarRamosAprobados (aprobados : JSValue) : SE World unit :=
  setItem LOCAL_STORAGE_KEY (JSON.stringify aprobados).

(** [ramo.dataset.requisitos ? ramo.dataset.requisitos.split(',') : []] *)
Definition requisitos_de (ramo : Element) : list JSString :=
  match dataset_requisitos ramo with
  | Some text => if truthy text then split 44 text else []
  | None => []
  end.

(** The body of the [forEach] in [actualizarEstadoVisual], run on one
    [ramo]. *)
Definition actualizarRamo (aprobados : JSValue) : SE Element unit :=
  ramoId ⇐ gets id;;
  requisitos ⇐ gets requisitos_de;;
  aprobado ⇐ lift (includes aprobados ramoId);;
  if aprobado then
    classList_add (js "aprobado");;;
    classList_remove (js "bloqueado")
  else
    classList_remove (js "aprobado");;;
    bloqueado ⇐
      (if bool_decide (0 < length requisitos) then
         requisitosCumplidos ⇐
           every (λ reqId, lift (includes aprobados reqId)) requisitos;;
         ret (negb requisitosCumplidos)
       else ret false);;
    if bloqueado then classList_add (js "bloqueado")
    else classList_remove (js "bloqueado").

(** [ramos.forEach(body)]: the elements of [ramos] in document order, each
    changed in place; a throw leaves the rest as it was. *)
Fixpoint forEach_ramos (body : SE Element unit) (doc : list Element)
  : Completion unit * list Element :=
  match doc with
  | [] => (Returned tt, [])
  | e :: rest =>
      if is_ramo e then
        match body e with
        | (Returned _, e1) =>
            let '(c, rest1) := forEach_ramos body rest in (c, e1 :: rest1)
        | (Thrown err, e1) => (Thrown err, e1 :: rest)
        end
      else let '(c, rest1) := forEach_ramos body rest in (c, e :: rest1)
  end.

Definition ramos_forEach (body : SE Element unit) : SE World unit :=
  λ w, let '(c, doc) := forEach_ramos body (document w) in
       (c, {| document := doc; localStorage := localStorage w;
              alerts := alerts w |}).

Definition actualizarEstadoVisual : SE World unit :=
  aprobados ⇐ cargarRamosAprobados;;
  ramos_forEach (actualizarRamo aprobados).

Definition MENSAJE : JSString :=
  js "No puedes aprobar este ramo. " ++ [10%N] ++
  js "Requisitos pendientes: " ++ [10%N] ++ js "- ".

(** The click listener.  [ramo] is [e.currentTarget] as it is when the
    listener starts; the listener reads it before anything is changed. *)
Definition manejarClicRamo (ramo : Element) : SE World unit :=
  let ramoId := id ramo in
  if contains (classList ramo) (js "bloqueado") then
    requisitos ⇐
      match dataset_requisitos ramo with
      | Some text => ret (split 44 text)
      | None => throw TypeError
      end;;
    aprobados ⇐ cargarRamosAprobados;;
    faltantes ⇐
      filterA (λ reqId, b ⇐ lift (includes aprobados reqId);; ret (negb b))
        requisitos;;
    nombresFaltantes ⇐
      mapA (λ reqId,
              reqElemento ⇐ getElementById reqId;;
              ret (match reqElemento with
                   | Some el => textContent el
                   | None => reqId
                   end))
        faltantes;;
    alert (MENSAJE ++ join ([10%N] ++ js "- ") nombresFaltantes)
  else
    aprobados ⇐ cargarRamosAprobados;;
    aprobado ⇐ lift (includes aprobados ramoId);;
    aprobados1 ⇐
      lift (if aprobado then filter_distinct aprobados ramoId
            else push aprobados ramoId);;
    guardarRamosAprobados aprobados1;;;
    actualizarEstadoVisual.

(** A click reaches the listener only on an element of [ramos]. *)
Definition click (i : nat) (w : World) : option (Completion unit * World) :=
  match document w !! i with
  | Some ramo => if is_ramo ramo then Some (manejarClicRamo ramo w) else None
  | None => None
  end.

(** The state the script derives for a [ramo], read off its classes. *)
Inductive Estado := Aprobado | Bloqueado | Normal.

Definition estado (e : Element) : Estado :=
  if contains (classList e) (js "aprobado") then Aprobado
  else if contains (classList e) (js "bloqueado") then Bloqueado
  else Normal.

(** ** Vocabulary of the properties *)

(** The completed set: [l] is the array of identifiers that
    [cargarRamosAprobados] returns in [w]. *)
Definition aprobados_de (w : World) (l : list JSString) : Prop :=
  (cargarRamosAprobados w).1 = Returned (JArr (JStr <$> l)).

(** Some requirement of [e] is not in [l]. *)
Definition pendiente (l : list JSString) (e : Element) : Prop :=
  Exists (λ r, r ∉ l) (requisitos_de e).

(** The classes of every [ramo] are those that [actualizarEstadoVisual]
    gives it for the completed set [l]: the page shows the stored state. *)
Definition al_dia (l : list JSString) (e : Element) : Prop :=
  ((js "aprobado" ∈ classList e) ↔ (id e ∈ l)) ∧
  ((js "bloqueado" ∈ classList e) ↔ (id e ∉ l) ∧ pendiente l e).

Definition sincronizado (w : World) (l : list JSString) : Prop :=
  Forall (λ e, is_ramo e → al_dia l e) (document w).

(** One [ramo] after the body of the [forEach] ran on it with the
    completed set [l]; other elements are not visited. *)
Definition ramo_actualizado (l : list JSString) (e : Element) : Element :=
  if is_ramo e then (actualizarRamo (JArr (JStr <$> l)) e).2 else e.

(** The completed set after an accepted click on the [ramo] [x]: the
    [filter] or the [push] of [manejarClicRamo]. *)
Definition tras_clic (l : list JSString) (x : JSString) : list JSString :=
  if bool_decide (x ∈ l) then filter (λ y, y ≠ x) l else l ++ [x].

(** The text the dialog of a rejected click shows for a requirement. *)
Definition nombre (w : World) (reqId : JSString) : JSString :=
  match (getElementById reqId w).1 with
  | Returned (Some el) => textContent el
  | _ => reqId
  end.

(** What the page declares for one element: for a [ramo], its identifier
    and its requirement list.  The script never changes either. *)
Definition item (e : Element) : option (JSString * list JSString) :=
  if is_ramo e then Some (id e, requisitos_de e) else None.

Definition catalogo (w : World) : list (option (JSString * list JSString)) :=
  item <$> document w.

(** [x] is the identifier of some [ramo]. *)
Definition en_catalogo (w : World) (x : JSString) : Prop :=
  ∃ i R, catalogo w !! i = Some (Some (x, R)).

(** What holds of a page [w] that shows the stored state, after any
    clicks, when it started from the catalogue of [w0] with the identifier
    [x] not completed: the catalogue is that of [w0], the completed set
    holds identifiers of the catalogue only, and [x] is not in it. *)
Definition invariante (w0 : World) (x : JSString) (w : World) : Prop :=
  catalogo w = catalogo w0 ∧
  ∃ l, sincronizado w l ∧ aprobados_de w l ∧
       (∀ z, z ∈ l → en_catalogo w0 z) ∧ x ∉ l.

(** Any number of clicks, one after the other. *)
Inductive clics : World → World → Prop :=
| clics_nil w : clics w w
| clics_cons w i c w1 w2 :
    click i w = Some (c, w1) → clics w1 w2 → clics w w2.

(** The pages the script reaches: it starts by running
    [actualizarEstadoVisual], here on a store that holds an array of
    strings (or nothing); after that come clicks on [ramos]. *)
Inductive alcanzable : World → Prop :=
| alcanzable_inicio w0 l w :
    aprobados_de w0 l →
    actualizarEstadoVisual w0 = (Returned tt, w) →
    alcanzable w
| alcanzable_click w i c w1 :
    alcanzable w → click i w = Some (c, w1) → alcanzable w1.

(** What [actualizarEstadoVisual] and a click leave of an element [e] in
    [e1]: its identifier, its attribute and its text, every class other
    than the two the script sets, and all of it when [e] is no [ramo]. *)
Definition conserva (e e1 : Element) : Prop :=
  id e1 = id e ∧
  dataset_requisitos e1 = dataset_requisitos e ∧
  textContent e1 = textContent e ∧
  (∀ c, c ≠ js "aprobado" → c ≠ js "bloqueado" →
        (c ∈ classList e1) ↔ (c ∈ classList e)) ∧
  (is_ramo e = false → e1 = e).

(** A computation that leaves the state as it found it, whether it
    returns or throws. *)
Definition solo_lee {S A} (m : SE S A) : Prop := ∀ s, (m s).2 = s.

(** ** A small page

    Three [ramos]: A requires nothing, B requires A, C requires A and B. *)

Definition ramo_ejemplo (i : JSString) (requisitos : option JSString) : Element :=
  {| id := i; classList := [js "ramo"]; dataset_requisitos := requisitos;
     textContent := js "Ramo " ++ i |}.

Definition pagina_ejemplo (almacen : gmap JSString JSString) : World :=
  {| document := [ramo_ejemplo (js "A") None;
                  ramo_ejemplo (js "B") (Some (js "A"));
                  ramo_ejemplo (js "C") (Some (js "A,B"))];
     localStorage := almacen; alerts := [] |}.

(** The same page over a store whose value is not JSON. *)
Definition pagina_corrupta : World :=
  pagina_ejemplo {[ LOCAL_STORAGE_KEY := js "{" ]}.

(** A page whose [ramo] X requires R, which no [ramo] is. *)
Definition pagina_huerfana (almacen : gmap JSString JSString) : World :=
  {| document := [ramo_ejemplo (js "X") (Some (js "R"));
                  ramo_ejemplo (js "A") None];
     localStorage := almacen; alerts := [] |}.

(** That page with X stored as completed. *)
Definition pagina_huerfana_aprobada : World :=
  pagina_huerfana {[ LOCAL_STORAGE_KEY := JSON.stringify (JArr [JStr (js "X")]) ]}.

(** The small page over a store that holds a JSON string, a JSON number,
    and an array with an entry that is no string. *)
Definition pagina_cadena : World :=
  pagina_ejemplo {[ LOCAL_STORAGE_KEY := JSON.stringify (JStr (js "xAy")) ]}.

Definition pagina_numero : World :=
  pagina_ejemplo {[ LOCAL_STORAGE_KEY := js "5" ]}.

Definition pagina_mixta : World :=
  pagina_ejemplo
    {[ LOCAL_STORAGE_KEY := JSON.stringify (JArr [JNum (js "1"); JStr (js "A")]) ]}.

(** A page whose two [ramos] require each other. *)
Definition pagina_ciclo : World :=
  {| document := [ramo_ejemplo (js "A") (Some (js "B"));
                  ramo_ejemplo (js "B") (Some (js "A"))];
     localStorage := ∅; alerts := [] |}.

(** The page after a click on the element at [i], if it is a [ramo]. *)
Definition pulsar (i : nat) (w : World) : World :=
  match click i w with
  | Some (_, w1) => w1
  | None => w
  end.

(** The page once the script has started, with nothing stored. *)
Definition pagina_inicial : World := (actualizarEstadoVisual (pagina_ejemplo ∅)).2.

Arguments js : simpl never.

(** A decidable statement about a given page is settled by running its
    decision procedure. *)
Ltac by_decision := refine (bool_decide_unpack _ _); vm_compute; exact I.

Global Instance pendiente_dec l e : Decision (pendiente l e).
Proof. unfold pendiente. apply _. Defined.


(** * Properties *)

(** ** [JSON.parse] reads back what [JSON.stringify] wrote *)


Section JSONRoundTrip.
Import JSON.

Lemma unhex_hex_digit d : (d < 16)%N → unhex (hex_digit d) = Some d.
Proof.
  intros Hd. unfold unhex, hex_digit, is_digit.
  destruct (d <? 10)%N eqn:E.
  - apply N.ltb_lt in E.
    replace ((48 <=? 48 + d)%N && (48 + d <=? 57)%N) with true.
    + f_equal. lia.
    + symmetry. apply andb_true_iff. split; apply N.leb_le; lia.
  - apply N.ltb_ge in E.
    replace ((48 <=? 87 + d)%N && (87 + d <=? 57)%N) with false.
    + replace ((97 <=? 87 + d)%N && (87 + d <=? 102)%N) with true.
      * f_equal. lia.
      * symmetry. apply andb_true_iff. split; apply N.leb_le; lia.
    + symmetry. apply andb_false_iff. right. apply N.leb_gt. lia.
Qed.

Lemma unhex4_UnicodeEscape c :
  (c < 65536)%N →
  unhex4 (hex_digit (c / 4096 mod 16)) (hex_digit (c / 256 mod 16))
    (hex_digit (c / 16 mod 16)) (hex_digit (c mod 16)) = Some c.
Proof.
  intros Hc. unfold unhex4.
  rewrite !unhex_hex_digit by (apply N.mod_lt; lia).
  simpl. f_equal.
  replace (c / 256)%N with (c / 16 / 16)%N by (rewrite N.Div0.div_div; reflexivity).
  replace (c / 4096)%N with (c / 16 / 16 / 16)%N by (rewrite !N.Div0.div_div; reflexivity).
  pose proof (N.div_mod c 16) as H0.
  pose proof (N.div_mod (c / 16) 16) as H1.
  pose proof (N.div_mod (c / 16 / 16) 16) as H2.
  assert (c / 16 / 16 / 16 < 16)%N as H3.
  { rewrite !N.Div0.div_div. apply N.Div0.div_lt_upper_bound. lia. }
  rewrite (N.mod_small (c / 16 / 16 / 16) 16) by exact H3.
  lia.
Qed.

Lemma lex_string_raw acc c tail :
  c ≠ 34%N → c ≠ 92%N → (c <? 32)%N = false →
  lex (LexString acc) (c :: tail) = lex (LexString (acc ++ [c])) tail.
Proof.
  intros H34 H92 H32. cbn [lex].
  apply N.eqb_neq in H34, H92. by rewrite H34, H92, H32.
Qed.

Lemma lex_string_unicode acc c tail :
  (c < 65536)%N →
  lex (LexString acc) (UnicodeEscape c ++ tail)
  = lex (LexString (acc ++ [c])) tail.
Proof.
  intros Hc. unfold UnicodeEscape. cbn [app lex].
  change (92 =? 34)%N with false. change (92 =? 92)%N with true.
  change (117 =? 117)%N with true. cbn match.
  by rewrite unhex4_UnicodeEscape.
Qed.

Lemma surrogate_raw c :
  is_lead c || is_trail c = true →
  c ≠ 34%N ∧ c ≠ 92%N ∧ (c <? 32)%N = false ∧ (c < 65536)%N.
Proof.
  unfold is_lead, is_trail. intros H.
  assert (55296 ≤ c ∧ c ≤ 57343)%N as [H1 H2].
  { apply orb_true_iff in H as [H|H]; apply andb_true_iff in H as [Ha Hb];
      apply N.leb_le in Ha, Hb; lia. }
  repeat split; try lia. apply N.ltb_ge. lia.
Qed.

(** What [escape_unit] writes for a unit is read back as that unit. *)
Lemma lex_escape_unit acc c tail :
  lex (LexString acc) (escape_unit c ++ tail)
  = lex (LexString (acc ++ [c])) tail.
Proof.
  unfold escape_unit.
  destruct (N.eqb_spec c 8) as [->|H8]; [reflexivity|].
  destruct (N.eqb_spec c 9) as [->|H9]; [reflexivity|].
  destruct (N.eqb_spec c 10) as [->|H10]; [reflexivity|].
  destruct (N.eqb_spec c 12) as [->|H12]; [reflexivity|].
  destruct (N.eqb_spec c 13) as [->|H13]; [reflexivity|].
  destruct (N.eqb_spec c 34) as [->|H34]; [reflexivity|].
  destruct (N.eqb_spec c 92) as [->|H92]; [reflexivity|].
  destruct (c <? 32)%N eqn:H32.
  - apply lex_string_unicode. apply N.ltb_lt in H32. lia.
  - cbn [orb]. destruct (is_lead c || is_trail c) eqn:Hs.
    + apply lex_string_unicode. by apply surrogate_raw.
    + by apply lex_string_raw.
Qed.

Lemma quote_body_cons c d s2 :
  quote_body (c :: d :: s2)
  = if is_lead c && is_trail d then c :: d :: quote_body s2
    else escape_unit c ++ quote_body (d :: s2).
Proof. reflexivity. Qed.

(** The lexer, inside a string, reads the quoted text back. *)
Lemma lex_quote_body_len n : ∀ s acc tail,
  length s ≤ n →
  lex (LexString acc) (quote_body s ++ 34%N :: tail)
  = ts ← lex LexDefault tail; Some (TStr (acc ++ s) :: ts).
Proof.
  induction n as [|n IH]; intros s acc tail Hlen.
  - destruct s; [|simpl in Hlen; lia].
    cbn [quote_body app lex]. change (34 =? 34)%N with true. cbn match.
    by rewrite app_nil_r.
  - destruct s as [|c [|d s2]].
    + apply (IH [] acc tail). simpl. lia.
    + cbn [quote_body]. rewrite lex_escape_unit.
      cbn [lex]. change (34 =? 34)%N with true. by cbn match.
    + rewrite quote_body_cons. destruct (is_lead c && is_trail d) eqn:Hp.
      * apply andb_true_iff in Hp as [Hc Hd].
        destruct (surrogate_raw c) as (?&?&?&?); [by rewrite Hc|].
        destruct (surrogate_raw d) as (?&?&?&?); [by rewrite Hd, orb_true_r|].
        cbn [app]. rewrite !lex_string_raw by done.
        simpl in Hlen. rewrite IH by lia.
        by rewrite <- !app_assoc.
      * rewrite <- app_assoc, lex_escape_unit.
        simpl in Hlen. rewrite IH by (simpl; lia).
        by rewrite <- app_assoc.
Qed.

Lemma lex_QuoteJSONString s tail :
  lex LexDefault (QuoteJSONString s ++ tail)
  = ts ← lex LexDefault tail; Some (TStr s :: ts).
Proof.
  unfold QuoteJSONString. cbn [app lex].
  change (is_atom_unit 34) with false. change (is_ws 34) with false.
  change (34 =? 34)%N with true. cbn match. cbn [flush mbind option_bind].
  rewrite <- app_assoc. cbn [app].
  rewrite (lex_quote_body_len (length s)) by done.
  cbn [app]. by destruct (lex LexDefault tail).
Qed.

Lemma lex_comma tail :
  lex LexDefault (44%N :: tail)
  = ts ← lex LexDefault tail; Some (TComma :: ts).
Proof. cbn. by destruct (lex LexDefault tail). Qed.

Lemma lex_lbracket tail :
  lex LexDefault (91%N :: tail)
  = ts ← lex LexDefault tail; Some (TLBracket :: ts).
Proof. cbn. by destruct (lex LexDefault tail). Qed.

Lemma lex_strings s rest :
  lex LexDefault (commas (map QuoteJSONString (s :: rest)) ++ [93%N])
  = Some (TStr s :: flat_map (λ x, [TComma; TStr x]) rest ++ [TRBracket]).
Proof.
  revert s. induction rest as [|y rest IH]; intros s.
  - cbn [map commas]. by rewrite lex_QuoteJSONString.
  - change (commas (map QuoteJSONString (s :: y :: rest)))
      with (QuoteJSONString s ++ 44%N :: commas (map QuoteJSONString (y :: rest))).
    rewrite <- app_assoc, lex_QuoteJSONString.
    rewrite <- app_comm_cons, lex_comma, IH. reflexivity.
Qed.

Lemma run_strings rest : ∀ acc,
  run ([FArr acc], ExpCommaOrEnd)
    (flat_map (λ x, [TComma; TStr x]) rest ++ [TRBracket])
  = Some ([], Done (JArr (rev acc ++ (JStr <$> rest)))).
Proof.
  induction rest as [|s rest IH]; intros acc.
  - cbn. by rewrite app_nil_r.
  - cbn [flat_map app run step mbind option_bind begin_value reduce].
    rewrite IH. cbn [rev fmap list_fmap]. by rewrite <- app_assoc.
Qed.

Lemma stringify_strings l :
  stringify (JArr (JStr <$> l))
  = 91%N :: commas (map QuoteJSONString l) ++ [93%N].
Proof.
  cbn [stringify]. do 3 f_equal.
  induction l as [|s l IH]; [done|]. cbn. by rewrite IH.
Qed.

(** An array of strings survives [JSON.stringify] then [JSON.parse]. *)
Lemma parse_stringify_strings l :
  parse (stringify (JArr (JStr <$> l))) = Some (JArr (JStr <$> l)).
Proof.
  rewrite stringify_strings. destruct l as [|s rest]; [reflexivity|].
  unfold parse.
  rewrite lex_lbracket, lex_strings.
  cbn [mbind option_bind app run step begin_value reduce].
  by rewrite run_strings.
Qed.

Lemma truthy_stringify_array l : truthy (stringify (JArr l)) = true.
Proof. reflexivity. Qed.

End JSONRoundTrip.

(** ** Running a computation *)

Section Run.
Context {S A B : Type}.

Lemma bind_apply (m : SE S A) (k : A → SE S B) s :
  bind m k s
  = match m s with
    | (Returned a, s1) => k a s1
    | (Thrown e, s1) => (Thrown e, s1)
    end.
Proof. reflexivity. Qed.

Lemma ret_apply (a : A) (s : S) : ret a s = (Returned a, s).
Proof. reflexivity. Qed.

Lemma lift_apply (c : Completion A) (s : S) : lift c s = (c, s).
Proof. reflexivity. Qed.

Lemma gets_apply (f : S → A) (s : S) : gets f s = (Returned (f s), s).
Proof. reflexivity. Qed.
End Run.

(** ** The store *)

Lemma cargarRamosAprobados_eq w :
  cargarRamosAprobados w
  = (match localStorage w !! LOCAL_STORAGE_KEY with
     | Some text =>
         if truthy text then
           match JSON.parse text with
           | Some v => Returned v
           | None => Thrown SyntaxError
           end
         else Returned (JArr [])
     | None => Returned (JArr [])
     end, w).
Proof.
  unfold cargarRamosAprobados, bind, getItem, gets.
  destruct (localStorage w !! LOCAL_STORAGE_KEY) as [text|]; [|done].
  destruct (truthy text); [|done].
  unfold JSON_parse. by destruct (JSON.parse text).
Qed.

Lemma includes_strings l x :
  includes (JArr (JStr <$> l)) x = Returned (bool_decide (x ∈ l)).
Proof.
  cbn [includes]. f_equal. induction l as [|y l IH]; [done|].
  cbn [fmap list_fmap existsb same_string]. rewrite IH.
  unfold JSString_eqb.
  destruct (decide (y = x)) as [->|Hne].
  - rewrite bool_decide_eq_true_2 by done. cbn.
    symmetry. apply bool_decide_eq_true_2. left.
  - rewrite (bool_decide_eq_false_2 (y = x)) by done. cbn.
    apply bool_decide_ext. rewrite elem_of_cons. split; [tauto|intros [->|]; done].
Qed.

Lemma every_includes {S} l (R : list JSString) (s : S) :
  every (λ reqId, lift (includes (JArr (JStr <$> l)) reqId)) R s
  = (Returned (bool_decide (Forall (λ r, r ∈ l) R)), s).
Proof.
  induction R as [|r R IH]; [done|].
  cbn [every]. unfold bind at 1, lift at 1. rewrite includes_strings.
  destruct (bool_decide_reflect (r ∈ l)) as [Hr|Hr].
  - rewrite IH. f_equal. f_equal. apply bool_decide_ext.
    rewrite Forall_cons. tauto.
  - unfold ret. do 2 f_equal. symmetry. apply bool_decide_eq_false_2.
    rewrite Forall_cons. tauto.
Qed.

Lemma actualizarRamo_strings l e :
  actualizarRamo (JArr (JStr <$> l)) e
  = (Returned tt,
     {| id := id e;
        classList :=
          if decide (id e ∈ l) then
            remove (add (classList e) (js "aprobado")) (js "bloqueado")
          else if decide (Exists (λ r, r ∉ l) (requisitos_de e)) then
            add (remove (classList e) (js "aprobado")) (js "bloqueado")
          else remove (remove (classList e) (js "aprobado")) (js "bloqueado");
        dataset_requisitos := dataset_requisitos e;
        textContent := textContent e |}).
Proof.
  unfold actualizarRamo, bind, gets. rewrite includes_strings.
  unfold lift at 1.
  destruct (decide (id e ∈ l)) as [Hin|Hnin].
  - rewrite bool_decide_eq_true_2 by done. reflexivity.
  - rewrite bool_decide_eq_false_2 by done.
    unfold classList_remove at 1, modify at 1.
    destruct (decide (Exists (λ r, r ∉ l) (requisitos_de e))) as [Hex|Hall].
    + rewrite bool_decide_eq_true_2.
      2:{ destruct Hex; simpl; lia. }
      rewrite every_includes, bool_decide_eq_false_2.
      2:{ intros HF. apply Exists_exists in Hex as (r & Hr & Hnr).
          rewrite Forall_forall in HF. by apply Hnr, HF. }
      reflexivity.
    + assert (Forall (λ r, r ∈ l) (requisitos_de e)) as HF.
      { apply Forall_forall. intros r Hr.
        destruct (decide (r ∈ l)) as [|Hn]; [done|].
        exfalso. apply Hall, Exists_exists. eauto. }
      case_bool_decide.
      * rewrite every_includes, bool_decide_eq_true_2 by done. reflexivity.
      * reflexivity.
Qed.

Lemma forEach_ramos_strings l doc :
  forEach_ramos (actualizarRamo (JArr (JStr <$> l))) doc
  = (Returned tt, ramo_actualizado l <$> doc).
Proof.
  induction doc as [|e doc IH]; [done|].
  cbn [forEach_ramos fmap list_fmap]. unfold ramo_actualizado at 1.
  destruct (is_ramo e).
  - rewrite actualizarRamo_strings, IH. reflexivity.
  - by rewrite IH.
Qed.

Lemma aprobados_de_cargar w l :
  aprobados_de w l →
  cargarRamosAprobados w = (Returned (JArr (JStr <$> l)), w).
Proof.
  unfold aprobados_de. rewrite cargarRamosAprobados_eq. cbn [fst].
  by intros ->.
Qed.

Lemma aprobados_de_inj w l1 l2 :
  aprobados_de w l1 → aprobados_de w l2 → l1 = l2.
Proof.
  unfold aprobados_de. intros -> [=H].
  revert l2 H. induction l1 as [|x l1 IH]; intros [|y l2] H; try done.
  injection H as -> H. f_equal. by apply IH.
Qed.

(** With a stored array of strings [actualizarEstadoVisual] returns, and
    what it does is [ramo_actualizado] on every element. *)
Lemma actualizarEstadoVisual_strings w l :
  aprobados_de w l →
  actualizarEstadoVisual w
  = (Returned tt,
     {| document := ramo_actualizado l <$> document w;
        localStorage := localStorage w; alerts := alerts w |}).
Proof.
  intros Hl. unfold actualizarEstadoVisual, bind.
  rewrite (aprobados_de_cargar w l Hl).
  unfold ramos_forEach. by rewrite forEach_ramos_strings.
Qed.

(** ** Classes *)

Lemma contains_true cl c : contains cl c = true ↔ (c ∈ cl).
Proof. unfold contains. apply bool_decide_eq_true. Qed.

Lemma contains_false cl c : contains cl c = false ↔ (c ∉ cl).
Proof. unfold contains. apply bool_decide_eq_false. Qed.

Lemma elem_of_add cl c x : (x ∈ add cl c) ↔ (x ∈ cl ∨ x = c).
Proof.
  unfold add. destruct (contains cl c) eqn:E.
  - apply contains_true in E. split; [tauto|]. by intros [?| ->].
  - rewrite elem_of_app, list_elem_of_singleton. tauto.
Qed.

Lemma elem_of_remove cl c x : (x ∈ remove cl c) ↔ (x ∈ cl ∧ x ≠ c).
Proof. unfold remove. rewrite list_elem_of_filter. tauto. Qed.

Lemma aprobado_bloqueado : js "aprobado" ≠ js "bloqueado".
Proof. discriminate. Qed.

Lemma ramo_aprobado : js "ramo" ≠ js "aprobado".
Proof. discriminate. Qed.

Lemma ramo_bloqueado : js "ramo" ≠ js "bloqueado".
Proof. discriminate. Qed.

(** The classes [actualizarRamo] leaves on a [ramo]. *)
Lemma actualizarRamo_classes l e c :
  (c ∈ classList (actualizarRamo (JArr (JStr <$> l)) e).2) ↔
    (c = js "aprobado" ∧ id e ∈ l) ∨
    (c = js "bloqueado" ∧ (id e ∉ l) ∧ pendiente l e) ∨
    (c ≠ js "aprobado" ∧ c ≠ js "bloqueado" ∧ c ∈ classList e).
Proof.
  rewrite actualizarRamo_strings. cbn [snd classList]. unfold pendiente.
  pose proof aprobado_bloqueado as Hab.
  destruct (decide (id e ∈ l)) as [Hin|Hnin];
    [|destruct (decide (Exists (λ r, r ∉ l) (requisitos_de e))) as [Hp|Hp]];
    repeat (rewrite elem_of_add || rewrite elem_of_remove);
    destruct (decide (c = js "aprobado")) as [Hca|Hca];
    destruct (decide (c = js "bloqueado")) as [Hcb|Hcb];
    try (exfalso; congruence); tauto.
Qed.

Section RamoActualizado.
Variables (l : list JSString) (e : Element).

Lemma ramo_actualizado_id : id (ramo_actualizado l e) = id e.
Proof.
  unfold ramo_actualizado. destruct (is_ramo e); [|done].
  by rewrite actualizarRamo_strings.
Qed.

Lemma ramo_actualizado_dataset :
  dataset_requisitos (ramo_actualizado l e) = dataset_requisitos e.
Proof.
  unfold ramo_actualizado. destruct (is_ramo e); [|done].
  by rewrite actualizarRamo_strings.
Qed.

Lemma ramo_actualizado_textContent :
  textContent (ramo_actualizado l e) = textContent e.
Proof.
  unfold ramo_actualizado. destruct (is_ramo e); [|done].
  by rewrite actualizarRamo_strings.
Qed.

Lemma ramo_actualizado_requisitos :
  requisitos_de (ramo_actualizado l e) = requisitos_de e.
Proof. unfold requisitos_de. by rewrite ramo_actualizado_dataset. Qed.

(** No other class changes; in particular an element stays in [ramos]
    or out of it. *)
Lemma ramo_actualizado_other c :
  c ≠ js "aprobado" → c ≠ js "bloqueado" →
  (c ∈ classList (ramo_actualizado l e)) ↔ (c ∈ classList e).
Proof.
  intros Ha Hb. unfold ramo_actualizado. destruct (is_ramo e); [|done].
  rewrite actualizarRamo_classes. tauto.
Qed.

Lemma ramo_actualizado_is_ramo : is_ramo (ramo_actualizado l e) = is_ramo e.
Proof.
  unfold is_ramo, contains. apply bool_decide_ext.
  apply ramo_actualizado_other; [apply ramo_aprobado|apply ramo_bloqueado].
Qed.

Lemma ramo_actualizado_al_dia : is_ramo e → al_dia l (ramo_actualizado l e).
Proof.
  intros Hr. unfold al_dia, pendiente.
  rewrite ramo_actualizado_id, ramo_actualizado_requisitos.
  unfold ramo_actualizado. destruct (is_ramo e); [|done].
  rewrite !actualizarRamo_classes. unfold pendiente.
  pose proof aprobado_bloqueado. split; split; intuition congruence.
Qed.
End RamoActualizado.

(** ** The state read off the classes *)

Lemma estado_al_dia l e :
  al_dia l e →
  (estado e = Aprobado ↔ (id e ∈ l)) ∧
  (estado e = Bloqueado ↔ (id e ∉ l) ∧ pendiente l e) ∧
  (estado e = Normal ↔ (id e ∉ l) ∧ ¬ pendiente l e).
Proof.
  intros [Ha Hb]. unfold estado.
  destruct (contains (classList e) (js "aprobado")) eqn:Ea;
    [apply contains_true in Ea | apply contains_false in Ea];
    (destruct (contains (classList e) (js "bloqueado")) eqn:Eb;
     [apply contains_true in Eb | apply contains_false in Eb]);
    repeat split; try done; try tauto.
Qed.

Lemma sincronizado_lookup w l i e :
  sincronizado w l → document w !! i = Some e → is_ramo e → al_dia l e.
Proof.
  intros Hs Hi Hr. unfold sincronizado in Hs.
  rewrite Forall_lookup in Hs. by apply (Hs i e).
Qed.

(** [actualizarEstadoVisual] brings the page up to date. *)
Lemma sincronizado_actualizado doc ls al l :
  sincronizado
    {| document := ramo_actualizado l <$> doc; localStorage := ls; alerts := al |} l.
Proof.
  unfold sincronizado. cbn [document]. apply Forall_fmap, Forall_forall.
  intros e _ Hr. cbn in Hr. rewrite ramo_actualizado_is_ramo in Hr.
  by apply ramo_actualizado_al_dia.
Qed.

(** ** The click listener *)

Lemma filter_distinct_strings l x :
  filter_distinct (JArr (JStr <$> l)) x
  = Returned (JArr (JStr <$> filter (λ y, y ≠ x) l)).
Proof.
  cbn [filter_distinct]. do 2 f_equal.
  induction l as [|y l IH]; [done|].
  cbn [fmap list_fmap List.filter same_string]. unfold JSString_eqb.
  rewrite filter_cons. destruct (decide (y = x)) as [->|Hne].
  - rewrite bool_decide_eq_true_2 by done. cbn [negb].
    rewrite decide_False by (intros H; by apply H). exact IH.
  - rewrite bool_decide_eq_false_2 by done. cbn [negb].
    rewrite decide_True by done. cbn [fmap list_fmap]. by rewrite <- IH.
Qed.

Lemma push_strings l x :
  push (JArr (JStr <$> l)) x = Returned (JArr (JStr <$> (l ++ [x]))).
Proof. cbn [push]. by rewrite fmap_app. Qed.

(** The [filter] or the [push] of the listener gives [tras_clic]. *)
Lemma tras_clic_strings l x :
  (if bool_decide (x ∈ l) then filter_distinct (JArr (JStr <$> l)) x
   else push (JArr (JStr <$> l)) x)
  = Returned (JArr (JStr <$> tras_clic l x)).
Proof.
  unfold tras_clic. rewrite filter_distinct_strings, push_strings.
  by destruct (bool_decide (x ∈ l)).
Qed.

(** After [guardarRamosAprobados] the store holds the array saved. *)
Lemma aprobados_de_guardado doc ls al l :
  aprobados_de
    {| document := doc;
       localStorage := <[LOCAL_STORAGE_KEY := JSON.stringify (JArr (JStr <$> l))]> ls;
       alerts := al |} l.
Proof.
  unfold aprobados_de. rewrite cargarRamosAprobados_eq. cbn [fst localStorage].
  rewrite lookup_insert_eq, truthy_stringify_array.
  by rewrite parse_stringify_strings.
Qed.

Lemma manejarClicRamo_aceptado w l x :
  contains (classList x) (js "bloqueado") = false →
  aprobados_de w l →
  manejarClicRamo x w
  = (Returned tt,
     {| document := ramo_actualizado (tras_clic l (id x)) <$> document w;
        localStorage :=
          <[LOCAL_STORAGE_KEY := JSON.stringify (JArr (JStr <$> tras_clic l (id x)))]>
            (localStorage w);
        alerts := alerts w |}).
Proof.
  intros Hb Hl. unfold manejarClicRamo. rewrite Hb.
  rewrite bind_apply, (aprobados_de_cargar w l Hl).
  rewrite bind_apply, lift_apply, includes_strings.
  rewrite bind_apply, lift_apply, tras_clic_strings.
  rewrite bind_apply. unfold guardarRamosAprobados, setItem, modify.
  erewrite actualizarEstadoVisual_strings by apply aprobados_de_guardado.
  reflexivity.
Qed.

(** When [cargarRamosAprobados] throws, so do [actualizarEstadoVisual] and
    a click on a [ramo] that is not blocked, and nothing has changed. *)
Lemma actualizarEstadoVisual_lanza w err :
  (cargarRamosAprobados w).1 = Thrown err →
  actualizarEstadoVisual w = (Thrown err, w).
Proof.
  intros H. unfold actualizarEstadoVisual. rewrite bind_apply.
  rewrite cargarRamosAprobados_eq in H |- *. cbn [fst] in H. by rewrite H.
Qed.

Lemma manejarClicRamo_lanza w X err :
  contains (classList X) (js "bloqueado") = false →
  (cargarRamosAprobados w).1 = Thrown err →
  manejarClicRamo X w = (Thrown err, w).
Proof.
  intros Hb H. unfold manejarClicRamo. rewrite Hb, bind_apply.
  rewrite cargarRamosAprobados_eq in H |- *. cbn [fst] in H. by rewrite H.
Qed.

Lemma filterA_faltantes {S} l (R : list JSString) (s : S) :
  filterA (λ reqId, b ⇐ lift (includes (JArr (JStr <$> l)) reqId);; ret (negb b))
    R s
  = (Returned (filter (λ r, r ∉ l) R), s).
Proof.
  induction R as [|r R IH]; [done|].
  cbn [filterA]. rewrite !bind_apply, lift_apply, includes_strings.
  rewrite ret_apply, bind_apply, IH, ret_apply, filter_cons.
  destruct (decide (r ∈ l)) as [Hr|Hr].
  - rewrite bool_decide_eq_true_2 by done. cbn [negb].
    by rewrite decide_False by (intros H; by apply H).
  - rewrite bool_decide_eq_false_2 by done. cbn [negb].
    by rewrite decide_True by done.
Qed.

Lemma getElementById_apply x w :
  getElementById x w
  = (Returned (if truthy x
               then List.find (λ e, JSString_eqb (id e) x) (document w)
               else None), w).
Proof. reflexivity. Qed.

Lemma mapA_nombres (F : list JSString) w :
  mapA (λ reqId,
          reqElemento ⇐ getElementById reqId;;
          ret (match reqElemento with
               | Some el => textContent el
               | None => reqId
               end)) F w
  = (Returned (nombre w <$> F), w).
Proof.
  induction F as [|r F IH]; [done|].
  cbn [mapA fmap list_fmap]. rewrite !bind_apply.
  unfold nombre at 1. rewrite !getElementById_apply.
  rewrite ret_apply, bind_apply, IH, ret_apply. cbn [fst].
  by destruct (if truthy r then _ else _).
Qed.

Lemma manejarClicRamo_rechazado w l x text :
  contains (classList x) (js "bloqueado") = true →
  dataset_requisitos x = Some text →
  aprobados_de w l →
  manejarClicRamo x w
  = (Returned tt,
     {| document := document w; localStorage := localStorage w;
        alerts :=
          alerts w ++
          [MENSAJE ++
           join ([10%N] ++ js "- ")
             (nombre w <$> filter (λ r, r ∉ l) (split 44 text))] |}).
Proof.
  intros Hb Hd Hl. unfold manejarClicRamo. rewrite Hb, Hd.
  rewrite bind_apply, ret_apply, bind_apply.
  rewrite (aprobados_de_cargar w l Hl).
  rewrite bind_apply, filterA_faltantes.
  rewrite bind_apply, mapA_nombres. reflexivity.
Qed.

Lemma pendiente_exists l e :
  pendiente l e ↔ ∃ r, r ∈ requisitos_de e ∧ r ∉ l.
Proof. unfold pendiente. apply Exists_exists. Qed.

Lemma no_pendiente_forall l e :
  ¬ pendiente l e ↔ ∀ r, r ∈ requisitos_de e → r ∈ l.
Proof.
  rewrite pendiente_exists. split.
  - intros H r Hr. destruct (decide (r ∈ l)); [done|]. exfalso. eauto.
  - intros H (r & Hr & Hn). by apply Hn, H.
Qed.

(** ** Clicks *)

Lemma click_ramo w i X :
  document w !! i = Some X → is_ramo X →
  click i w = Some (manejarClicRamo X w).
Proof.
  intros Hi Hr. unfold click. rewrite Hi.
  by destruct (is_ramo X).
Qed.

Lemma click_inv w i c w1 :
  click i w = Some (c, w1) →
  ∃ X, document w !! i = Some X ∧ is_ramo X ∧ manejarClicRamo X w = (c, w1).
Proof.
  unfold click. destruct (document w !! i) as [X|]; [|done].
  destruct (is_ramo X) eqn:E; [|done]. intros [= H].
  exists X. by rewrite E.
Qed.

Lemma aprobados_de_almacen w w1 l :
  localStorage w1 = localStorage w → aprobados_de w l → aprobados_de w1 l.
Proof.
  unfold aprobados_de. rewrite !cargarRamosAprobados_eq. cbn [fst].
  by intros ->.
Qed.

(** A [ramo] with a requirement has the attribute its requirements are
    read from, whichever way the script reads it. *)
Lemma pendiente_dataset l X :
  pendiente l X →
  ∃ text, dataset_requisitos X = Some text ∧ requisitos_de X = split 44 text.
Proof.
  unfold pendiente, requisitos_de. intros H.
  destruct (dataset_requisitos X) as [text|].
  - exists text. split; [done|]. destruct (truthy text); [done|].
    by apply Exists_nil in H.
  - by apply Exists_nil in H.
Qed.

(** In a page that is up to date the class the listener tests tells
    whether the [ramo] is blocked for the completed set. *)
Lemma bloqueado_al_dia l X :
  al_dia l X →
  contains (classList X) (js "bloqueado") = true ↔ (id X ∉ l) ∧ pendiente l X.
Proof. intros [_ Hb]. by rewrite contains_true. Qed.

Lemma clic_rechazado w l i X :
  sincronizado w l → aprobados_de w l →
  document w !! i = Some X → is_ramo X →
  id X ∉ l → pendiente l X →
  click i w
  = Some (Returned tt,
          {| document := document w; localStorage := localStorage w;
             alerts :=
               alerts w ++
               [MENSAJE ++
                join ([10%N] ++ js "- ")
                  (nombre w <$> filter (λ r, r ∉ l) (requisitos_de X))] |}).
Proof.
  intros Hs Hl Hi Hr Hx Hp.
  rewrite (click_ramo w i X Hi Hr). f_equal.
  destruct (pendiente_dataset l X Hp) as (text & Hd & ->).
  apply manejarClicRamo_rechazado; [|done..].
  apply (bloqueado_al_dia l); [|done].
  by apply (sincronizado_lookup w l i).
Qed.

Lemma clic_aceptado w l i X :
  sincronizado w l → aprobados_de w l →
  document w !! i = Some X → is_ramo X →
  ¬ ((id X ∉ l) ∧ pendiente l X) →
  click i w
  = Some (Returned tt,
          {| document := ramo_actualizado (tras_clic l (id X)) <$> document w;
             localStorage :=
               <[LOCAL_STORAGE_KEY :=
                   JSON.stringify (JArr (JStr <$> tras_clic l (id X)))]>
                 (localStorage w);
             alerts := alerts w |}).
Proof.
  intros Hs Hl Hi Hr Hn.
  rewrite (click_ramo w i X Hi Hr). f_equal.
  apply manejarClicRamo_aceptado; [|done].
  destruct (contains (classList X) (js "bloqueado")) eqn:E; [|done].
  exfalso. apply Hn. apply (bloqueado_al_dia l); [|done].
  by apply (sincronizado_lookup w l i).
Qed.

Lemma elem_of_tras_clic_in l x z :
  x ∈ l → (z ∈ tras_clic l x) ↔ (z ∈ l ∧ z ≠ x).
Proof.
  intros Hx. unfold tras_clic. rewrite bool_decide_eq_true_2 by done.
  rewrite list_elem_of_filter. tauto.
Qed.

Lemma elem_of_tras_clic_notin l x z :
  x ∉ l → (z ∈ tras_clic l x) ↔ (z ∈ l ∨ z = x).
Proof.
  intros Hx. unfold tras_clic. rewrite bool_decide_eq_false_2 by done.
  rewrite elem_of_app, list_elem_of_singleton. tauto.
Qed.

Lemma NoDup_tras_clic l x : NoDup l → NoDup (tras_clic l x).
Proof.
  intros Hnd. unfold tras_clic. case_bool_decide as Hx.
  - by apply NoDup_filter.
  - apply NoDup_app. split; [done|]. split; [|apply NoDup_singleton].
    intros z Hz ->%list_elem_of_singleton. done.
Qed.

Lemma manejarClicRamo_sin_requisitos w X :
  contains (classList X) (js "bloqueado") = true →
  dataset_requisitos X = None →
  manejarClicRamo X w = (Thrown TypeError, w).
Proof. intros Hb Hd. unfold manejarClicRamo. by rewrite Hb, Hd. Qed.

(** ** Every page the script reaches shows the stored state

    Once [actualizarEstadoVisual] has run on a stored array of strings,
    and after any clicks, the store still holds an array of strings and
    the classes of every [ramo] are up to date with it: the hypotheses
    [sincronizado] and [aprobados_de] above hold of all such pages. *)

Lemma click_sincronizado w l i c w1 :
  sincronizado w l → aprobados_de w l →
  click i w = Some (c, w1) →
  c = Returned tt ∧ ∃ l1, sincronizado w1 l1 ∧ aprobados_de w1 l1.
Proof.
  intros Hs Hl Hclick.
  destruct (click_inv w i c w1 Hclick) as (Z & Hi & Hr & _).
  destruct (decide ((id Z ∉ l) ∧ pendiente l Z)) as [[Hz Hp]|Hn].
  - rewrite (clic_rechazado w l i Z) in Hclick by done.
    injection Hclick as <- <-. split; [done|]. exists l.
    split; [done|]. by apply (aprobados_de_almacen w).
  - rewrite (clic_aceptado w l i Z) in Hclick by done.
    injection Hclick as <- <-. split; [done|].
    exists (tras_clic l (id Z)).
    split; [apply sincronizado_actualizado | apply aprobados_de_guardado].
Qed.

Lemma clics_sincronizado w w2 :
  clics w w2 →
  ∀ l, sincronizado w l → aprobados_de w l →
  ∃ l2, sincronizado w2 l2 ∧ aprobados_de w2 l2.
Proof.
  induction 1 as [w|w i c w1 w2 Hclick _ IH]; intros l Hs Hl; [by exists l|].
  destruct (click_sincronizado w l i c w1 Hs Hl Hclick) as (_ & l1 & Hs1 & Hl1).
  by apply (IH l1).
Qed.

Lemma inicio_sincronizado w l :
  aprobados_de w l →
  ∃ w1, actualizarEstadoVisual w = (Returned tt, w1) ∧
        sincronizado w1 l ∧ aprobados_de w1 l.
Proof.
  intros Hl. eexists. split; [by apply actualizarEstadoVisual_strings|].
  split; [apply sincronizado_actualizado | by apply (aprobados_de_almacen w)].
Qed.

Lemma alcanzable_sincronizado w :
  alcanzable w → ∃ l, sincronizado w l ∧ aprobados_de w l.
Proof.
  induction 1 as [w0 l w Hl Hini|w i c w1 _ (l & Hs & Hl) Hclick].
  - destruct (inicio_sincronizado w0 l Hl) as (w1 & Hw1 & Hs & Hl1).
    rewrite Hw1 in Hini. injection Hini as <-. by exists l.
  - by destruct (click_sincronizado w l i c w1 Hs Hl Hclick) as [_ ?].
Qed.

(** In a page the script reached, the classes show the completed set. *)
Lemma alcanzable_al_dia w l :
  alcanzable w → aprobados_de w l → sincronizado w l.
Proof.
  intros (l0 & Hs & Hl0)%alcanzable_sincronizado Hl.
  by rewrite (aprobados_de_inj w l l0 Hl Hl0).
Qed.

(** So the state a [ramo] shows there is the one [actualizarEstadoVisual]
    computes from the completed set. *)
Lemma alcanzable_estado w l i X :
  alcanzable w → aprobados_de w l →
  document w !! i = Some X → is_ramo X →
  (estado X = Aprobado ↔ (id X ∈ l)) ∧
  (estado X = Bloqueado ↔ (id X ∉ l) ∧ pendiente l X) ∧
  (estado X = Normal ↔ (id X ∉ l) ∧ ¬ pendiente l X).
Proof.
  intros Ha Hl Hi Hr. apply estado_al_dia.
  apply (sincronizado_lookup w l i); [|done..].
  by apply alcanzable_al_dia.
Qed.

(** Conversely a page that shows its completed set is one the script
    reaches: running [actualizarEstadoVisual] on it changes nothing. *)
Lemma add_elem_of cl c : c ∈ cl → add cl c = cl.
Proof. intros H. unfold add. by rewrite (proj2 (contains_true cl c) H). Qed.

Lemma remove_not_elem_of cl c : c ∉ cl → remove cl c = cl.
Proof.
  unfold remove. induction cl as [|y cl IH]; [done|].
  rewrite not_elem_of_cons. intros [Hne Hn].
  rewrite filter_cons, decide_True by done. by rewrite IH.
Qed.

Lemma ramo_actualizado_al_dia_id l e :
  (is_ramo e → al_dia l e) → ramo_actualizado l e = e.
Proof.
  intros Hal. unfold ramo_actualizado.
  destruct (is_ramo e); [|done]. destruct (Hal I) as [Ha Hb].
  rewrite actualizarRamo_strings. cbn [snd].
  destruct e as [ide cl ds tc]. cbn [id classList dataset_requisitos textContent] in *.
  f_equal. unfold pendiente in Hb.
  set (R := requisitos_de _) in *.
  destruct (decide (ide ∈ l)) as [Hin|Hnin].
  - rewrite add_elem_of by tauto. apply remove_not_elem_of. tauto.
  - destruct (decide (Exists (λ r, r ∉ l) R)) as [Hp|Hp].
    + rewrite remove_not_elem_of by tauto. apply add_elem_of. tauto.
    + rewrite (remove_not_elem_of cl (js "aprobado")) by tauto.
      apply remove_not_elem_of. tauto.
Qed.

Lemma sincronizado_alcanzable w l :
  sincronizado w l → aprobados_de w l → alcanzable w.
Proof.
  intros Hs Hl. apply (alcanzable_inicio w l); [done|].
  rewrite (actualizarEstadoVisual_strings w l Hl). f_equal.
  destruct w as [doc ls al]. cbn [document localStorage alerts] in *.
  f_equal. unfold sincronizado in Hs. cbn [document] in Hs. clear Hl.
  induction Hs as [|e doc He _ IH]; [done|].
  cbn [fmap list_fmap]. by rewrite (ramo_actualizado_al_dia_id l e He), IH.
Qed.

(** ** A requirement that no [ramo] is *)

Lemma item_actualizado l e : item (ramo_actualizado l e) = item e.
Proof.
  unfold item.
  by rewrite ramo_actualizado_is_ramo, ramo_actualizado_id,
    ramo_actualizado_requisitos.
Qed.

Lemma catalogo_actualizado l doc ls al :
  catalogo {| document := ramo_actualizado l <$> doc;
              localStorage := ls; alerts := al |}
  = item <$> doc.
Proof.
  unfold catalogo. cbn [document]. rewrite <- list_fmap_compose.
  apply list_fmap_ext. intros _ e _. apply item_actualizado.
Qed.

Lemma catalogo_lookup w i x R :
  catalogo w !! i = Some (Some (x, R)) →
  ∃ X, document w !! i = Some X ∧ is_ramo X ∧ id X = x ∧ requisitos_de X = R.
Proof.
  unfold catalogo. rewrite list_lookup_fmap.
  destruct (document w !! i) as [X|]; [|done]. cbn. unfold item.
  destruct (is_ramo X) eqn:E; [|done]. intros [= <- <-].
  exists X. by rewrite E.
Qed.

Lemma catalogo_ramo w i X :
  document w !! i = Some X → is_ramo X →
  catalogo w !! i = Some (Some (id X, requisitos_de X)).
Proof.
  intros Hi Hr. unfold catalogo. rewrite list_lookup_fmap, Hi. cbn.
  unfold item. by destruct (is_ramo X).
Qed.

Lemma elem_of_tras_clic l x z : z ∈ tras_clic l x → z ∈ l ∨ z = x.
Proof.
  destruct (decide (x ∈ l)) as [Hx|Hx].
  - rewrite elem_of_tras_clic_in by done. tauto.
  - by rewrite elem_of_tras_clic_notin by done.
Qed.

Section RequisitoDesconocido.
Variables (w0 : World) (i : nat) (x : JSString) (R : list JSString)
          (r : JSString).
Hypothesis HX : catalogo w0 !! i = Some (Some (x, R)).
Hypothesis Hunico : ∀ j R', catalogo w0 !! j = Some (Some (x, R')) → j = i.
Hypothesis HrR : r ∈ R.
Hypothesis Hr : ¬ en_catalogo w0 r.

(** While [x] is not completed, the [ramo] at [i] is blocked. *)
Lemma invariante_bloqueado w :
  invariante w0 x w →
  ∃ l X2, aprobados_de w l ∧ (x ∉ l) ∧
          document w !! i = Some X2 ∧ estado X2 = Bloqueado.
Proof using HX HrR Hr.
  intros (Hcat & l & Hs & Hl & Hsub & Hx).
  rewrite <- Hcat in HX.
  destruct (catalogo_lookup w i x R HX) as (X2 & Hi & Hram & Hid & Hreq).
  exists l, X2. repeat split; try done.
  pose proof (sincronizado_lookup w l i X2 Hs Hi Hram) as Hal.
  apply (estado_al_dia l X2 Hal). rewrite Hid. split; [done|].
  apply pendiente_exists. exists r. rewrite Hreq. split; [done|].
  intros Hrl. by apply Hr, Hsub.
Qed.

(** A click keeps the invariant. *)
Lemma invariante_click w j c w' :
  invariante w0 x w → click j w = Some (c, w') → invariante w0 x w'.
Proof using HX Hunico HrR Hr.
  intros Hinv Hclick.
  destruct (invariante_bloqueado w Hinv) as (l0 & X2 & Hl0 & _ & Hi & Hest).
  destruct Hinv as (Hcat & l & Hs & Hl & Hsub & Hx).
  destruct (click_inv w j c w' Hclick) as (Z & Hj & HrZ & _).
  destruct (decide ((id Z ∉ l) ∧ pendiente l Z)) as [[Hz Hp]|Hn].
  - rewrite (clic_rechazado w l j Z) in Hclick by done.
    injection Hclick as _ <-. split; [done|].
    exists l. repeat split; try done.
    by apply (aprobados_de_almacen w).
  - rewrite (clic_aceptado w l j Z) in Hclick by done.
    injection Hclick as _ <-. split.
    { by rewrite catalogo_actualizado. }
    exists (tras_clic l (id Z)).
    split; [apply sincronizado_actualizado|].
    split; [apply aprobados_de_guardado|].
    pose proof (catalogo_ramo w j Z Hj HrZ) as HcZ. rewrite Hcat in HcZ.
    split.
    + intros z [Hz| ->]%elem_of_tras_clic; [by apply Hsub|].
      by exists j, (requisitos_de Z).
    + intros [Hxl|Hxz]%elem_of_tras_clic; [done|].
      rewrite <- Hxz in HcZ. apply Hunico in HcZ as ->.
      assert (Z = X2) as -> by congruence.
      apply Hn. rewrite (aprobados_de_inj w l l0 Hl Hl0).
      pose proof (sincronizado_lookup w l i X2 Hs Hi HrZ) as Hal.
      rewrite (aprobados_de_inj w l l0 Hl Hl0) in Hal.
      by apply (estado_al_dia l0 X2 Hal).
Qed.

Lemma invariante_clics w w2 :
  clics w w2 → invariante w0 x w → invariante w0 x w2.
Proof using HX Hunico HrR Hr.
  induction 1 as [w|w j c w1 w2 Hclick _ IH]; [done|].
  intros Hinv. by apply IH, (invariante_click w j c).
Qed.
End RequisitoDesconocido.

(** A click keeps the catalogue and stores identifiers of [ramos] only. *)
Lemma en_catalogo_click w0 w l i c w1 :
  catalogo w = catalogo w0 →
  sincronizado w l → aprobados_de w l →
  (∀ z, z ∈ l → en_catalogo w0 z) →
  click i w = Some (c, w1) →
  catalogo w1 = catalogo w0 ∧
  ∃ l1, sincronizado w1 l1 ∧ aprobados_de w1 l1 ∧
        (∀ z, z ∈ l1 → en_catalogo w0 z).
Proof.
  intros Hcat Hs Hl Hsub Hclick.
  destruct (click_inv w i c w1 Hclick) as (Z & Hi & HZ & _).
  destruct (decide ((id Z ∉ l) ∧ pendiente l Z)) as [[Hz Hp]|Hn].
  - rewrite (clic_rechazado w l i Z) in Hclick by done.
    injection Hclick as _ <-. split; [done|]. exists l.
    split; [done|]. split; [by apply (aprobados_de_almacen w)|done].
  - rewrite (clic_aceptado w l i Z) in Hclick by done.
    injection Hclick as _ <-. split; [by rewrite catalogo_actualizado|].
    exists (tras_clic l (id Z)).
    split; [apply sincronizado_actualizado|].
    split; [apply aprobados_de_guardado|].
    intros z [Hz| ->]%elem_of_tras_clic; [by apply Hsub|].
    exists i, (requisitos_de Z). rewrite <- Hcat. by apply catalogo_ramo.
Qed.

Lemma en_catalogo_clics w0 w w2 :
  clics w w2 →
  ∀ l, catalogo w = catalogo w0 →
       sincronizado w l → aprobados_de w l →
       (∀ z, z ∈ l → en_catalogo w0 z) →
  catalogo w2 = catalogo w0 ∧
  ∃ l2, sincronizado w2 l2 ∧ aprobados_de w2 l2 ∧
        (∀ z, z ∈ l2 → en_catalogo w0 z).
Proof.
  induction 1 as [w|w i c w1 w2 Hclick _ IH]; intros l Hcat Hs Hl Hsub.
  - split; [done|]. by exists l.
  - destruct (en_catalogo_click w0 w l i c w1 Hcat Hs Hl Hsub Hclick)
      as (Hcat1 & l1 & Hs1 & Hl1 & Hsub1).
    by apply (IH l1).
Qed.

(** ** The scenario of the specification

    A, then B requiring A, then C requiring A and B; nothing stored.  B is
    refused while A is missing; A is approved; B is approved; A is taken
    back, which blocks C again and leaves B approved. *)

Example escenario :
  estado <$> document pagina_inicial = [Normal; Bloqueado; Bloqueado] ∧
  alerts (pulsar 1 pagina_inicial) = [MENSAJE ++ js "Ramo A"] ∧
  (cargarRamosAprobados (pulsar 1 pagina_inicial)).1 = Returned (JArr []) ∧
  (cargarRamosAprobados (pulsar 0 pagina_inicial)).1
  = Returned (JArr [JStr (js "A")]) ∧
  estado <$> document (pulsar 0 pagina_inicial)
  = [Aprobado; Normal; Bloqueado] ∧
  (cargarRamosAprobados (pulsar 1 (pulsar 0 pagina_inicial))).1
  = Returned (JArr [JStr (js "A"); JStr (js "B")]) ∧
  estado <$> document (pulsar 1 (pulsar 0 pagina_inicial))
  = [Aprobado; Aprobado; Normal] ∧
  (cargarRamosAprobados (pulsar 0 (pulsar 1 (pulsar 0 pagina_inicial)))).1
  = Returned (JArr [JStr (js "B")]) ∧
  estado <$> document (pulsar 0 (pulsar 1 (pulsar 0 pagina_inicial)))
  = [Normal; Aprobado; Bloqueado].
Proof. repeat split; reflexivity. Qed.

(** What [JSON.parse] refuses, and what it takes that is no array. *)
Example parse_rechaza :
  JSON.parse (js "{") = None ∧
  JSON.parse (js "[1,]") = None ∧
  JSON.parse (js "01") = None ∧
  JSON.parse (js "[] []") = None ∧
  JSON.parse (js "nulo") = None.
Proof. repeat split; reflexivity. Qed.

Example parse_acepta :
  JSON.parse (js " [ ] ") = Some (JArr []) ∧
  JSON.parse (js "-1.5e3") = Some (JNum (js "-1.5e3")) ∧
  JSON.parse (js "[null,true,{}]") = Some (JArr [JNull; JBool true; JObj []]).
Proof. repeat split; reflexivity. Qed.

(** * The claims *)

(** C1.  [actualizarEstadoVisual] (the specification's computeStatuses)
    returns, and the state it leaves on a [ramo] X is: blocked exactly when
    the identifier of X is not in the completed set and some requirement of
    X is not in it either; approved exactly when the identifier is in the
    completed set; normal (available) exactly in the remaining case.  The
    requirement list need not be non-empty for this. *)
Theorem actualizarEstadoVisual_estado w l i X :
  aprobados_de w l →
  document w !! i = Some X →
  is_ramo X →
  ∃ w1 X1,
    actualizarEstadoVisual w = (Returned tt, w1) ∧
    document w1 !! i = Some X1 ∧
    item X1 = item X ∧
    (estado X1 = Bloqueado ↔
       (id X ∉ l) ∧ ∃ r, r ∈ requisitos_de X ∧ r ∉ l) ∧
    (estado X1 = Aprobado ↔ (id X ∈ l)) ∧
    (estado X1 = Normal ↔
       (id X ∉ l) ∧ ∀ r, r ∈ requisitos_de X → r ∈ l).
Proof.
  intros Hl Hi Hr. eexists _, (ramo_actualizado l X).
  split; [by apply actualizarEstadoVisual_strings|].
  cbn [document]. split; [by rewrite list_lookup_fmap, Hi|].
  split.
  { unfold item. by rewrite ramo_actualizado_is_ramo, ramo_actualizado_id,
      ramo_actualizado_requisitos. }
  destruct (estado_al_dia l _ (ramo_actualizado_al_dia l X Hr)) as (Ha & Hb & Hn).
  rewrite ramo_actualizado_id in Ha, Hb, Hn.
  unfold pendiente in Hb, Hn. rewrite ramo_actualizado_requisitos in Hb, Hn.
  fold (pendiente l X) in Hb, Hn.
  rewrite <- pendiente_exists, <- no_pendiente_forall. done.
Qed.

Lemma actualizarEstadoVisual_estado_witness :
  ∃ w1 X1,
    actualizarEstadoVisual (pagina_ejemplo ∅) = (Returned tt, w1) ∧
    document w1 !! 1 = Some X1 ∧
    item X1 = item (ramo_ejemplo (js "B") (Some (js "A"))) ∧
    (estado X1 = Bloqueado ↔
       (js "B" ∉ []) ∧
       ∃ r, r ∈ requisitos_de (ramo_ejemplo (js "B") (Some (js "A"))) ∧ r ∉ []) ∧
    (estado X1 = Aprobado ↔ (js "B" ∈ [])) ∧
    (estado X1 = Normal ↔
       (js "B" ∉ []) ∧
       ∀ r, r ∈ requisitos_de (ramo_ejemplo (js "B") (Some (js "A"))) → r ∈ []).
Proof.
  apply (actualizarEstadoVisual_estado (pagina_ejemplo ∅) [] 1
           (ramo_ejemplo (js "B") (Some (js "A")))).
  - reflexivity.
  - reflexivity.
  - vm_compute. exact I.
Defined.

(** C2.  A click on a [ramo] X that is not blocked returns, and the
    completed set it leaves is the old one without the identifier of X when
    it was a member (every other member kept, nothing added), and the old
    one with that identifier added when it was not; the whole new array is
    what [guardarRamosAprobados] wrote under the storage key. *)
Theorem clic_alterna_aprobado w l i X :
  alcanzable w → aprobados_de w l →
  document w !! i = Some X → is_ramo X →
  ¬ ((id X ∉ l) ∧ pendiente l X) →
  ∃ w1 l1,
    click i w = Some (Returned tt, w1) ∧
    aprobados_de w1 l1 ∧
    localStorage w1
    = <[LOCAL_STORAGE_KEY := JSON.stringify (JArr (JStr <$> l1))]> (localStorage w) ∧
    (id X ∈ l → ∀ z, (z ∈ l1) ↔ (z ∈ l ∧ z ≠ id X)) ∧
    (id X ∉ l → ∀ z, (z ∈ l1) ↔ (z ∈ l ∨ z = id X)).
Proof.
  intros Hs%alcanzable_sincronizado Hl Hi Hr Hn.
  destruct Hs as (l0 & Hs & Hl0).
  rewrite <- (aprobados_de_inj w l l0 Hl Hl0) in Hs.
  eexists _, (tras_clic l (id X)).
  split; [by apply (clic_aceptado w l i X)|].
  split; [apply aprobados_de_guardado|].
  split; [done|]. split; intros Hx z.
  - by apply elem_of_tras_clic_in.
  - by apply elem_of_tras_clic_notin.
Qed.

Lemma clic_alterna_aprobado_witness :
  ∃ w1 l1,
    click 0 pagina_inicial = Some (Returned tt, w1) ∧
    aprobados_de w1 l1 ∧
    localStorage w1
    = <[LOCAL_STORAGE_KEY := JSON.stringify (JArr (JStr <$> l1))]>
        (localStorage pagina_inicial) ∧
    (js "A" ∈ [] → ∀ z, (z ∈ l1) ↔ (z ∈ [] ∧ z ≠ js "A")) ∧
    (js "A" ∉ [] → ∀ z, (z ∈ l1) ↔ (z ∈ [] ∨ z = js "A")).
Proof.
  apply (clic_alterna_aprobado pagina_inicial [] 0 (ramo_ejemplo (js "A") None)).
  - apply (alcanzable_inicio (pagina_ejemplo ∅) []); reflexivity.
  - reflexivity.
  - reflexivity.
  - vm_compute. exact I.
  - intros [_ H]. apply Exists_nil in H. exact H.
Defined.

(** C3.  A click on a [ramo] that is blocked for the completed set is
    rejected: the listener shows its dialog and returns, and the document,
    the storage (so the completed set too) are what they were; nothing is
    saved. *)
Theorem clic_bloqueado_sin_efecto w l i X :
  alcanzable w → aprobados_de w l →
  document w !! i = Some X → is_ramo X →
  id X ∉ l → pendiente l X →
  ∃ w1 msg,
    click i w = Some (Returned tt, w1) ∧
    document w1 = document w ∧
    localStorage w1 = localStorage w ∧
    aprobados_de w1 l ∧
    alerts w1 = alerts w ++ [msg].
Proof.
  intros Ha Hl Hi Hr Hx Hp.
  pose proof (alcanzable_al_dia w l Ha Hl) as Hs. eexists _, _.
  split; [by apply (clic_rechazado w l i X)|].
  cbn [document localStorage alerts]. repeat split; try done.
  by apply (aprobados_de_almacen w).
Qed.

Lemma clic_bloqueado_sin_efecto_witness :
  ∃ w1 msg,
    click 1 pagina_inicial = Some (Returned tt, w1) ∧
    document w1 = document pagina_inicial ∧
    localStorage w1 = localStorage pagina_inicial ∧
    aprobados_de w1 [] ∧
    alerts w1 = alerts pagina_inicial ++ [msg].
Proof.
  apply (clic_bloqueado_sin_efecto pagina_inicial [] 1
           {| id := js "B"; classList := [js "ramo"; js "bloqueado"];
              dataset_requisitos := Some (js "A");
              textContent := js "Ramo " ++ js "B" |}).
  - apply (alcanzable_inicio (pagina_ejemplo ∅) []); reflexivity.
  - reflexivity.
  - reflexivity.
  - vm_compute. exact I.
  - by_decision.
  - by_decision.
Defined.

(** C4, as the code has it.  [cargarRamosAprobados] changes nothing.  With
    no stored value, or the empty string stored, it returns the empty
    array.  With any other stored text it returns what [JSON.parse] makes
    of it, whatever its shape, and when the text is not JSON the
    [SyntaxError] of [JSON.parse] reaches the caller. *)
Theorem cargarRamosAprobados_resultado w :
  (cargarRamosAprobados w).2 = w ∧
  match localStorage w !! LOCAL_STORAGE_KEY with
  | None => (cargarRamosAprobados w).1 = Returned (JArr [])
  | Some text =>
      if truthy text then
        match JSON.parse text with
        | Some v => (cargarRamosAprobados w).1 = Returned v
        | None => (cargarRamosAprobados w).1 = Thrown SyntaxError
        end
      else (cargarRamosAprobados w).1 = Returned (JArr [])
  end.
Proof.
  rewrite cargarRamosAprobados_eq. cbn [fst snd]. split; [done|].
  destruct (localStorage w !! LOCAL_STORAGE_KEY) as [text|]; [|done].
  destruct (truthy text); [|done]. by destruct (JSON.parse text).
Qed.

(** C4 fails as stated: the stored text [{] is not the encoding of any
    list of identifiers, and loading it throws instead of returning the
    empty set. *)
Lemma cargarRamosAprobados_lanza :
  localStorage pagina_corrupta !! LOCAL_STORAGE_KEY = Some (js "{") ∧
  (∀ l, JSON.parse (js "{") ≠ Some (JArr (JStr <$> l))) ∧
  (cargarRamosAprobados pagina_corrupta).1 = Thrown SyntaxError ∧
  (cargarRamosAprobados pagina_corrupta).1 ≠ Returned (JArr []).
Proof.
  split; [reflexivity|]. split; [intros l; discriminate|].
  split; [reflexivity|discriminate].
Qed.

(** C5.  Adding an identifier to the completed set blocks nothing: over
    the same document, a [ramo] that [actualizarEstadoVisual] leaves normal
    or approved for a completed set is not left blocked for that set
    extended with any identifier Y. *)
Theorem agregar_no_bloquea w w' l l' Y i X :
  aprobados_de w l → aprobados_de w' l' →
  document w' = document w →
  (∀ z, (z ∈ l') ↔ (z ∈ l ∨ z = Y)) →
  document w !! i = Some X → is_ramo X →
  ∃ w1 w1' X1 X1',
    actualizarEstadoVisual w = (Returned tt, w1) ∧
    actualizarEstadoVisual w' = (Returned tt, w1') ∧
    document w1 !! i = Some X1 ∧
    document w1' !! i = Some X1' ∧
    (estado X1 = Normal ∨ estado X1 = Aprobado → estado X1' ≠ Bloqueado).
Proof.
  intros Hl Hl' Hdoc Hext Hi Hr.
  eexists _, _, (ramo_actualizado l X), (ramo_actualizado l' X).
  split; [by apply actualizarEstadoVisual_strings|].
  split; [by apply actualizarEstadoVisual_strings|].
  cbn [document]. rewrite Hdoc, !list_lookup_fmap, Hi.
  split; [done|]. split; [done|].
  destruct (estado_al_dia l _ (ramo_actualizado_al_dia l X Hr)) as (Ha & _ & Hn).
  destruct (estado_al_dia l' _ (ramo_actualizado_al_dia l' X Hr)) as (_ & Hb' & _).
  rewrite ramo_actualizado_id in Ha, Hb', Hn.
  rewrite no_pendiente_forall, ramo_actualizado_requisitos in Hn.
  rewrite pendiente_exists, ramo_actualizado_requisitos in Hb'.
  intros Hest Hblo. apply Hb' in Hblo as (Hx' & r & Hr1 & Hr2).
  destruct Hest as [Hest|Hest].
  - apply Hn in Hest as [_ Hall]. apply Hr2, Hext. left. by apply Hall.
  - apply Ha in Hest. apply Hx', Hext. by left.
Qed.

Lemma agregar_no_bloquea_witness :
  ∃ w1 w1' X1 X1',
    actualizarEstadoVisual
      (pagina_ejemplo {[ LOCAL_STORAGE_KEY := JSON.stringify (JArr [JStr (js "A")]) ]})
    = (Returned tt, w1) ∧
    actualizarEstadoVisual
      (pagina_ejemplo
         {[ LOCAL_STORAGE_KEY :=
              JSON.stringify (JArr [JStr (js "A"); JStr (js "C")]) ]})
    = (Returned tt, w1') ∧
    document w1 !! 1 = Some X1 ∧
    document w1' !! 1 = Some X1' ∧
    (estado X1 = Normal ∨ estado X1 = Aprobado → estado X1' ≠ Bloqueado).
Proof.
  apply (agregar_no_bloquea
           (pagina_ejemplo
              {[ LOCAL_STORAGE_KEY := JSON.stringify (JArr [JStr (js "A")]) ]})
           _ [js "A"] [js "A"; js "C"] (js "C") 1
           (ramo_ejemplo (js "B") (Some (js "A")))).
  - reflexivity.
  - reflexivity.
  - reflexivity.
  - intros z. rewrite elem_of_cons, !list_elem_of_singleton. tauto.
  - reflexivity.
  - vm_compute. exact I.
Defined.

(** C6.  Saving an array of identifiers and loading it again gives that
    array back, with the same identifiers in the same order; so the
    completed set read back has exactly the members of the one saved. *)
Theorem guardar_y_cargar w S :
  ∃ w1,
    guardarRamosAprobados (JArr (JStr <$> S)) w = (Returned tt, w1) ∧
    cargarRamosAprobados w1 = (Returned (JArr (JStr <$> S)), w1) ∧
    ∀ S1, aprobados_de w1 S1 → ∀ x, (x ∈ S1) ↔ (x ∈ S).
Proof.
  eexists. split; [reflexivity|].
  assert (aprobados_de
            {| document := document w;
               localStorage :=
                 <[LOCAL_STORAGE_KEY := JSON.stringify (JArr (JStr <$> S))]>
                   (localStorage w);
               alerts := alerts w |} S) as HS by apply aprobados_de_guardado.
  split; [by apply aprobados_de_cargar|].
  intros S1 HS1 x. by rewrite (aprobados_de_inj _ _ _ HS1 HS).
Qed.

(** C7.  The dialog of a rejected click lists the requirements of X that
    are not in the completed set, in the order of the requirement list,
    each shown as the text of the element [getElementById] finds for it,
    and as the identifier itself when it finds none. *)
Theorem clic_bloqueado_faltantes w l i X :
  alcanzable w → aprobados_de w l →
  document w !! i = Some X → is_ramo X →
  id X ∉ l → pendiente l X →
  ∃ w1 faltantes,
    click i w = Some (Returned tt, w1) ∧
    faltantes = filter (λ r, r ∉ l) (requisitos_de X) ∧
    alerts w1
    = alerts w ++ [MENSAJE ++ join ([10%N] ++ js "- ") (nombre w <$> faltantes)] ∧
    ∀ r, nombre w r
         = match (if truthy r
                  then List.find (λ e, JSString_eqb (id e) r) (document w)
                  else None) with
           | Some el => textContent el
           | None => r
           end.
Proof.
  intros Ha Hl Hi Hr Hx Hp.
  pose proof (alcanzable_al_dia w l Ha Hl) as Hs. eexists _, _.
  split; [by apply (clic_rechazado w l i X)|].
  split; [reflexivity|]. split; [reflexivity|].
  intros r. unfold nombre. by rewrite getElementById_apply.
Qed.

Lemma clic_bloqueado_faltantes_witness :
  ∃ w1 faltantes,
    click 2 pagina_inicial = Some (Returned tt, w1) ∧
    faltantes = filter (λ r, r ∉ []) [js "A"; js "B"] ∧
    alerts w1
    = alerts pagina_inicial ++
      [MENSAJE ++ join ([10%N] ++ js "- ") (nombre pagina_inicial <$> faltantes)] ∧
    ∀ r, nombre pagina_inicial r
         = match (if truthy r
                  then List.find (λ e, JSString_eqb (id e) r)
                         (document pagina_inicial)
                  else None) with
           | Some el => textContent el
           | None => r
           end.
Proof.
  apply (clic_bloqueado_faltantes pagina_inicial [] 2
           {| id := js "C"; classList := [js "ramo"; js "bloqueado"];
              dataset_requisitos := Some (js "A,B");
              textContent := js "Ramo " ++ js "C" |}).
  - apply (alcanzable_inicio (pagina_ejemplo ∅) []); reflexivity.
  - reflexivity.
  - reflexivity.
  - vm_compute. exact I.
  - by_decision.
  - by_decision.
Defined.

(** C8, as the code has it.  Let X be a [ramo] whose identifier is its
    own, with a requirement that is the identifier of no [ramo], and let
    the completed set hold identifiers of [ramos] only.  Once the script
    has started, and after any number of clicks, X is approved when its
    identifier is in the completed set and blocked when it is not: it is
    never available.  And once its identifier is not in the completed
    set, after any number of further clicks it is still not in it and X
    is still blocked. *)
Theorem requisito_desconocido_bloquea w l i x R r :
  aprobados_de w l →
  (∀ z, z ∈ l → en_catalogo w z) →
  catalogo w !! i = Some (Some (x, R)) →
  (∀ j R', catalogo w !! j = Some (Some (x, R')) → j = i) →
  r ∈ R → ¬ en_catalogo w r →
  ∃ w1,
    actualizarEstadoVisual w = (Returned tt, w1) ∧
    aprobados_de w1 l ∧
    ∀ w2, clics w1 w2 →
      catalogo w2 = catalogo w ∧
      ∃ l2 X2,
        aprobados_de w2 l2 ∧
        document w2 !! i = Some X2 ∧
        (x ∈ l2 → estado X2 = Aprobado) ∧
        (x ∉ l2 →
         estado X2 = Bloqueado ∧
         ∀ w3, clics w2 w3 →
               ∃ l3 X3, aprobados_de w3 l3 ∧ (x ∉ l3) ∧
                        document w3 !! i = Some X3 ∧ estado X3 = Bloqueado).
Proof.
  intros Hl Hsub HX Hunico HrR Hr. eexists.
  split; [by apply actualizarEstadoVisual_strings|].
  split; [by apply (aprobados_de_almacen w)|].
  intros w2 Hclics.
  destruct (en_catalogo_clics w _ w2 Hclics l) as (Hcat & l2 & Hs2 & Hl2 & Hsub2).
  { by rewrite catalogo_actualizado. }
  { apply sincronizado_actualizado. }
  { by apply (aprobados_de_almacen w). }
  { done. }
  split; [done|].
  pose proof HX as HX2. rewrite <- Hcat in HX2.
  destruct (catalogo_lookup w2 i x R HX2) as (X2 & Hi & Hram & Hid & Hreq).
  exists l2, X2. split; [done|]. split; [done|].
  pose proof (sincronizado_lookup w2 l2 i X2 Hs2 Hi Hram) as Hal.
  destruct (estado_al_dia l2 X2 Hal) as (HA & HB & _).
  rewrite Hid in HA, HB. split; [by apply HA|].
  intros Hx. assert (invariante w x w2) as Hinv.
  { split; [done|]. by exists l2. }
  split.
  - destruct (invariante_bloqueado w i x R r HX HrR Hr w2 Hinv)
      as (l2' & X2' & _ & _ & Hi' & Hest).
    congruence.
  - intros w3 Hclics3.
    apply (invariante_bloqueado w i x R r HX HrR Hr).
    by apply (invariante_clics w i x R r HX Hunico HrR Hr w2 w3 Hclics3).
Qed.

Lemma requisito_desconocido_bloquea_witness :
  ∃ w1,
    actualizarEstadoVisual pagina_huerfana_aprobada = (Returned tt, w1) ∧
    aprobados_de w1 [js "X"] ∧
    ∀ w2, clics w1 w2 →
      catalogo w2 = catalogo pagina_huerfana_aprobada ∧
      ∃ l2 X2,
        aprobados_de w2 l2 ∧
        document w2 !! 0 = Some X2 ∧
        (js "X" ∈ l2 → estado X2 = Aprobado) ∧
        (js "X" ∉ l2 →
         estado X2 = Bloqueado ∧
         ∀ w3, clics w2 w3 →
               ∃ l3 X3, aprobados_de w3 l3 ∧ (js "X" ∉ l3) ∧
                        document w3 !! 0 = Some X3 ∧ estado X3 = Bloqueado).
Proof.
  apply (requisito_desconocido_bloquea pagina_huerfana_aprobada [js "X"] 0
           (js "X") [js "R"] (js "R")).
  - reflexivity.
  - intros z Hz. apply list_elem_of_singleton in Hz. rewrite Hz.
    exists 0, [js "R"]. reflexivity.
  - reflexivity.
  - intros [|[|j]] R' H; [reflexivity|discriminate H|discriminate H].
  - by_decision.
  - intros ([|[|j]] & R' & H); discriminate H.
Defined.

(** C8 fails as stated: on this page the completed set holds the
    identifier of a [ramo] only, the requirement R of X is the identifier
    of no [ramo], and X is approved, not blocked. *)
Lemma requisito_desconocido_aprobado :
  aprobados_de pagina_huerfana_aprobada [js "X"] ∧
  (∀ z, z ∈ [js "X"] → en_catalogo pagina_huerfana_aprobada z) ∧
  catalogo pagina_huerfana_aprobada !! 0 = Some (Some (js "X", [js "R"])) ∧
  ¬ en_catalogo pagina_huerfana_aprobada (js "R") ∧
  ∃ w1 X1,
    actualizarEstadoVisual pagina_huerfana_aprobada = (Returned tt, w1) ∧
    document w1 !! 0 = Some X1 ∧
    estado X1 = Aprobado ∧ estado X1 ≠ Bloqueado.
Proof.
  split; [reflexivity|]. split.
  { intros z ->%list_elem_of_singleton. by exists 0, [js "R"]. }
  split; [reflexivity|]. split.
  { intros ([|[|j]] & R' & H); discriminate H. }
  eexists _, _. split; [reflexivity|]. split; [reflexivity|].
  split; [reflexivity|discriminate].
Qed.

(** C9.  A click on a [ramo] X that is not blocked changes the membership
    of no identifier other than that of X. *)
Theorem clic_conserva_los_demas w l i X z :
  alcanzable w → aprobados_de w l →
  document w !! i = Some X → is_ramo X →
  ¬ ((id X ∉ l) ∧ pendiente l X) →
  z ≠ id X →
  ∃ w1 l1,
    click i w = Some (Returned tt, w1) ∧
    aprobados_de w1 l1 ∧
    ((z ∈ l1) ↔ (z ∈ l)).
Proof.
  intros Ha Hl Hi Hr Hn Hz.
  pose proof (alcanzable_al_dia w l Ha Hl) as Hs.
  eexists _, (tras_clic l (id X)).
  split; [by apply (clic_aceptado w l i X)|].
  split; [apply aprobados_de_guardado|].
  destruct (decide (id X ∈ l)) as [Hx|Hx].
  - rewrite elem_of_tras_clic_in by done. tauto.
  - rewrite elem_of_tras_clic_notin by done. tauto.
Qed.

Lemma clic_conserva_los_demas_witness :
  ∃ w1 l1,
    click 0 pagina_inicial = Some (Returned tt, w1) ∧
    aprobados_de w1 l1 ∧
    ((js "B" ∈ l1) ↔ (js "B" ∈ [])).
Proof.
  apply (clic_conserva_los_demas pagina_inicial [] 0
           (ramo_ejemplo (js "A") None) (js "B")).
  - apply (alcanzable_inicio (pagina_ejemplo ∅) []); reflexivity.
  - reflexivity.
  - reflexivity.
  - vm_compute. exact I.
  - intros [_ H]. apply Exists_nil in H. exact H.
  - discriminate.
Defined.

(** C10.  Whatever [ramo] is clicked, if the stored array had no
    identifier twice, the array stored afterwards has none twice either. *)
Theorem clic_sin_duplicados w l i c w1 :
  aprobados_de w l → NoDup l →
  click i w = Some (c, w1) →
  ∃ l1, aprobados_de w1 l1 ∧ NoDup l1.
Proof.
  intros Hl Hnd (X & Hi & Hr & HX)%click_inv.
  destruct (contains (classList X) (js "bloqueado")) eqn:Hb.
  - exists l. split; [|done]. apply (aprobados_de_almacen w); [|done].
    destruct (dataset_requisitos X) as [text|] eqn:Hd.
    + rewrite (manejarClicRamo_rechazado w l X text) in HX by done.
      by injection HX as _ <-.
    + rewrite (manejarClicRamo_sin_requisitos w X) in HX by done.
      by injection HX as _ <-.
  - rewrite (manejarClicRamo_aceptado w l X) in HX by done.
    injection HX as _ <-. exists (tras_clic l (id X)).
    split; [apply aprobados_de_guardado | by apply NoDup_tras_clic].
Qed.

Lemma clic_sin_duplicados_witness :
  ∃ l1,
    aprobados_de
      (manejarClicRamo (ramo_ejemplo (js "B") (Some (js "A")))
         (pulsar 0 pagina_inicial)).2 l1
    ∧ NoDup l1.
Proof.
  apply (clic_sin_duplicados (pulsar 0 pagina_inicial) [js "A"] 1
           (manejarClicRamo (ramo_ejemplo (js "B") (Some (js "A")))
              (pulsar 0 pagina_inicial)).1).
  - reflexivity.
  - apply NoDup_singleton.
  - reflexivity.
Defined.

(** * Further properties of the script *)

(** ** [actualizarRamo] on any stored value

    [aprobados.includes] either answers for every identifier (an array, a
    string) or is a [TypeError] for every identifier. *)

Lemma includes_cases v :
  (∃ p, ∀ x, includes v x = Returned (p x)) ∨
  (∀ x, includes v x = Thrown TypeError).
Proof.
  destruct v; try (by right); left.
  - by exists (λ x, is_substring x s).
  - by exists (λ x, existsb (same_string x) elements).
Qed.

Section Incluye.
Variables (v : JSValue) (p : JSString → bool).
Hypothesis Hp : ∀ x, includes v x = Returned (p x).

Lemma every_incluye {S} (R : list JSString) (s : S) :
  every (λ reqId, lift (includes v reqId)) R s = (Returned (forallb p R), s).
Proof using Hp.
  induction R as [|r R IH]; [done|].
  cbn [every forallb]. rewrite bind_apply, lift_apply, Hp.
  destruct (p r); [exact IH|done].
Qed.

Lemma actualizarRamo_incluye e :
  actualizarRamo v e
  = (Returned tt,
     {| id := id e;
        classList :=
          if p (id e) then
            remove (add (classList e) (js "aprobado")) (js "bloqueado")
          else if forallb p (requisitos_de e) then
            remove (remove (classList e) (js "aprobado")) (js "bloqueado")
          else add (remove (classList e) (js "aprobado")) (js "bloqueado");
        dataset_requisitos := dataset_requisitos e;
        textContent := textContent e |}).
Proof using Hp.
  unfold actualizarRamo. do 2 (rewrite bind_apply, gets_apply).
  rewrite bind_apply, lift_apply, Hp.
  destruct (p (id e)); [reflexivity|].
  rewrite bind_apply. unfold classList_remove at 1, modify at 1.
  rewrite bind_apply. case_bool_decide as Hlen.
  - rewrite bind_apply, every_incluye, ret_apply.
    by destruct (forallb p (requisitos_de e)).
  - destruct (requisitos_de e); [reflexivity|]. simpl in Hlen. lia.
Qed.
End Incluye.

Lemma actualizarRamo_TypeError v e :
  (∀ x, includes v x = Thrown TypeError) →
  actualizarRamo v e = (Thrown TypeError, e).
Proof.
  intros Hv. unfold actualizarRamo. do 2 (rewrite bind_apply, gets_apply).
  by rewrite bind_apply, lift_apply, Hv.
Qed.

(** ** What [actualizarEstadoVisual] keeps, whatever is stored *)

Lemma conserva_refl e : conserva e e.
Proof. by repeat split. Qed.

Lemma conserva_ramo v e :
  is_ramo e = true → conserva e (actualizarRamo v e).2.
Proof.
  intros Hr. destruct (includes_cases v) as [[p Hp]|Hv].
  - rewrite (actualizarRamo_incluye v p Hp). cbn [snd].
    repeat split; cbn [id classList dataset_requisitos textContent];
      try congruence.
    + destruct (p (id e)); [|destruct (forallb p (requisitos_de e))];
        repeat (rewrite elem_of_add || rewrite elem_of_remove); tauto.
    + destruct (p (id e)); [|destruct (forallb p (requisitos_de e))];
        repeat (rewrite elem_of_add || rewrite elem_of_remove); tauto.
  - rewrite (actualizarRamo_TypeError v e Hv). apply conserva_refl.
Qed.

Lemma conserva_is_ramo e e1 : conserva e e1 → is_ramo e1 = is_ramo e.
Proof.
  intros (_ & _ & _ & Hc & _). unfold is_ramo, contains.
  apply bool_decide_ext, Hc; [apply ramo_aprobado | apply ramo_bloqueado].
Qed.

Lemma conserva_item e e1 : conserva e e1 → item e1 = item e.
Proof.
  intros Hc. unfold item, requisitos_de. rewrite (conserva_is_ramo e e1 Hc).
  destruct Hc as (-> & -> & _). done.
Qed.

Lemma conserva_trans e e1 e2 : conserva e e1 → conserva e1 e2 → conserva e e2.
Proof.
  intros H1 H2. pose proof (conserva_is_ramo e e1 H1) as Hr.
  destruct H1 as (Hi1 & Hd1 & Ht1 & Hc1 & He1).
  destruct H2 as (Hi2 & Hd2 & Ht2 & Hc2 & He2).
  split; [congruence|]. split; [congruence|]. split; [congruence|]. split.
  - intros c Ha Hb. rewrite (Hc2 c Ha Hb). by apply Hc1.
  - intros Hn. rewrite <- (He1 Hn). apply He2. congruence.
Qed.

Lemma forEach_ramos_conserva v doc :
  Forall2 conserva doc (forEach_ramos (actualizarRamo v) doc).2.
Proof.
  induction doc as [|e doc IH]; [constructor|].
  cbn [forEach_ramos]. destruct (is_ramo e) eqn:Hr.
  - pose proof (conserva_ramo v e Hr) as Hc.
    destruct (actualizarRamo v e) as [[[]|err] e1]; cbn [snd] in Hc.
    + destruct (forEach_ramos (actualizarRamo v) doc) as [c rest1].
      by constructor.
    + constructor; [done|]. apply Forall2_same_length_lookup_2; [done|].
      intros i x y Hx Hy. assert (x = y) as -> by congruence.
      apply conserva_refl.
  - destruct (forEach_ramos (actualizarRamo v) doc) as [c rest1].
    constructor; [|done]. apply conserva_refl.
Qed.

Lemma Forall2_conserva_refl doc : Forall2 conserva doc doc.
Proof. induction doc; constructor; [apply conserva_refl|done]. Qed.

(** What [actualizarEstadoVisual] leaves alone. *)
Lemma actualizarEstadoVisual_marco w c w1 :
  actualizarEstadoVisual w = (c, w1) →
  localStorage w1 = localStorage w ∧
  alerts w1 = alerts w ∧
  Forall2 conserva (document w) (document w1).
Proof.
  unfold actualizarEstadoVisual. rewrite bind_apply, cargarRamosAprobados_eq.
  destruct (match localStorage w !! LOCAL_STORAGE_KEY with
            | Some _ => _ | None => _ end) as [v|err].
  - unfold ramos_forEach.
    pose proof (forEach_ramos_conserva v (document w)) as H.
    destruct (forEach_ramos (actualizarRamo v) (document w)) as [c1 doc].
    intros [= <- <-]. by repeat split.
  - intros [= <- <-]. repeat split. apply Forall2_conserva_refl.
Qed.

(** X1.  Whatever is stored, and whether it returns or throws,
    [actualizarEstadoVisual] leaves the store and the dialogs as they
    were, and of every element its identifier, its requirement attribute,
    its text and every class other than the two it sets; an element that
    is no [ramo] is left as it was. *)
Theorem actualizarEstadoVisual_conserva w :
  localStorage (actualizarEstadoVisual w).2 = localStorage w ∧
  alerts (actualizarEstadoVisual w).2 = alerts w ∧
  Forall2 conserva (document w) (document (actualizarEstadoVisual w).2).
Proof.
  destruct (actualizarEstadoVisual w) as [c w1] eqn:Hw. cbn [snd].
  by apply (actualizarEstadoVisual_marco w c w1).
Qed.

(** ** What [actualizarEstadoVisual] computes, whatever is stored *)

Lemma forEach_ramos_incluye v p doc :
  (∀ x, includes v x = Returned (p x)) →
  forEach_ramos (actualizarRamo v) doc
  = (Returned tt, (λ e, if is_ramo e then (actualizarRamo v e).2 else e) <$> doc).
Proof.
  intros Hp. induction doc as [|e doc IH]; [done|].
  cbn [forEach_ramos fmap list_fmap]. rewrite IH.
  destruct (is_ramo e); [|done].
  by rewrite (actualizarRamo_incluye v p Hp).
Qed.

Lemma forEach_ramos_TypeError v doc :
  (∀ x, includes v x = Thrown TypeError) →
  forEach_ramos (actualizarRamo v) doc
  = (if existsb is_ramo doc then Thrown TypeError else Returned tt, doc).
Proof.
  intros Hv. induction doc as [|e doc IH]; [done|].
  cbn [forEach_ramos existsb]. rewrite IH.
  destruct (is_ramo e); cbn [orb].
  - by rewrite (actualizarRamo_TypeError v e Hv).
  - by destruct (existsb is_ramo doc).
Qed.

Lemma existsb_is_ramo_lookup doc i e :
  doc !! i = Some e → is_ramo e → existsb is_ramo doc = true.
Proof.
  intros Hi Hr. apply existsb_exists. exists e. split.
  - apply list_elem_of_In, list_elem_of_lookup. by exists i.
  - by destruct (is_ramo e).
Qed.

(** When [actualizarEstadoVisual] returns, what was stored has an
    [includes] that answers, and every [ramo] is what the body of the
    [forEach] made of the [ramo] at its place. *)
Lemma actualizarEstadoVisual_returned w w1 i X1 :
  actualizarEstadoVisual w = (Returned tt, w1) →
  document w1 !! i = Some X1 → is_ramo X1 →
  ∃ v p X,
    (cargarRamosAprobados w).1 = Returned v ∧
    (∀ x, includes v x = Returned (p x)) ∧
    document w !! i = Some X ∧ is_ramo X ∧
    X1 = (actualizarRamo v X).2.
Proof.
  unfold actualizarEstadoVisual. rewrite bind_apply.
  rewrite (cargarRamosAprobados_eq w). cbn [fst].
  destruct (match localStorage w !! LOCAL_STORAGE_KEY with
            | Some _ => _ | None => _ end) as [v|err]; [|done].
  unfold ramos_forEach. destruct (includes_cases v) as [[p Hp]|Hv].
  - rewrite (forEach_ramos_incluye v p _ Hp). intros [= <-]. cbn [document].
    rewrite list_lookup_fmap.
    destruct (document w !! i) as [X|] eqn:Hi; [|done]. cbn.
    intros [= <-] Hr. exists v, p, X.
    destruct (is_ramo X) eqn:HX; [|by rewrite HX in Hr].
    by repeat split.
  - rewrite (forEach_ramos_TypeError v _ Hv).
    destruct (existsb is_ramo (document w)) eqn:Hex; [done|].
    intros [= <-]. cbn [document]. intros Hi Hr.
    by rewrite (existsb_is_ramo_lookup _ i X1 Hi Hr) in Hex.
Qed.

Lemma aprobado_no_bloqueado : js "bloqueado" ≠ js "aprobado".
Proof. discriminate. Qed.

(** X2.  When [actualizarEstadoVisual] returns, whatever was stored, no
    [ramo] carries both classes: an approved [ramo] is never shown
    blocked. *)
Theorem actualizarEstadoVisual_nunca_ambas w w1 i X1 :
  actualizarEstadoVisual w = (Returned tt, w1) →
  document w1 !! i = Some X1 → is_ramo X1 →
  ¬ (js "aprobado" ∈ classList X1 ∧ js "bloqueado" ∈ classList X1).
Proof.
  intros Hw Hi Hr.
  destruct (actualizarEstadoVisual_returned w w1 i X1 Hw Hi Hr)
    as (v & p & X & _ & Hp & _ & _ & ->).
  rewrite (actualizarRamo_incluye v p Hp). cbn [snd classList].
  pose proof aprobado_bloqueado. pose proof aprobado_no_bloqueado.
  destruct (p (id X)); [|destruct (forallb p (requisitos_de X))];
    repeat (rewrite elem_of_add || rewrite elem_of_remove); tauto.
Qed.

Lemma actualizarEstadoVisual_nunca_ambas_witness :
  ¬ (js "aprobado" ∈ [js "ramo"; js "bloqueado"] ∧
     js "bloqueado" ∈ [js "ramo"; js "bloqueado"]).
Proof.
  apply (actualizarEstadoVisual_nunca_ambas (pagina_ejemplo ∅) pagina_inicial 1
           {| id := js "B"; classList := [js "ramo"; js "bloqueado"];
              dataset_requisitos := Some (js "A");
              textContent := js "Ramo " ++ js "B" |}).
  - reflexivity.
  - reflexivity.
  - vm_compute. exact I.
Defined.

(** X3.  When [actualizarEstadoVisual] returns, whatever was stored, a
    [ramo] whose requirement attribute is absent or empty is not blocked. *)
Theorem sin_requisitos_no_bloqueado w w1 i X1 :
  actualizarEstadoVisual w = (Returned tt, w1) →
  document w1 !! i = Some X1 → is_ramo X1 →
  (dataset_requisitos X1 = None ∨ dataset_requisitos X1 = Some []) →
  (js "bloqueado" ∉ classList X1) ∧ estado X1 ≠ Bloqueado.
Proof.
  intros Hw Hi Hr Hd.
  destruct (actualizarEstadoVisual_returned w w1 i X1 Hw Hi Hr)
    as (v & p & X & _ & Hp & _ & _ & ->).
  rewrite (actualizarRamo_incluye v p Hp) in Hd |- *.
  cbn [snd classList dataset_requisitos] in Hd |- *.
  assert (requisitos_de X = []) as ->.
  { unfold requisitos_de. by destruct Hd as [-> | ->]. }
  cbn [forallb].
  assert (js "bloqueado" ∉
            (if p (id X)
             then remove (add (classList X) (js "aprobado")) (js "bloqueado")
             else remove (remove (classList X) (js "aprobado")) (js "bloqueado")))
    as Hb.
  { destruct (p (id X)); rewrite elem_of_remove; tauto. }
  split; [done|]. unfold estado. cbn [classList].
  apply contains_false in Hb. rewrite Hb.
  by destruct (contains _ (js "aprobado")).
Qed.

Lemma sin_requisitos_no_bloqueado_witness :
  (js "bloqueado" ∉ classList (ramo_ejemplo (js "A") None)) ∧
  estado (ramo_ejemplo (js "A") None) ≠ Bloqueado.
Proof.
  apply (sin_requisitos_no_bloqueado (pagina_ejemplo ∅) pagina_inicial 0).
  - reflexivity.
  - reflexivity.
  - vm_compute. exact I.
  - by left.
Defined.

Lemma cargarRamosAprobados_returned w v :
  (cargarRamosAprobados w).1 = Returned v →
  cargarRamosAprobados w = (Returned v, w).
Proof. rewrite cargarRamosAprobados_eq. cbn [fst]. by intros ->. Qed.

Lemma actualizarEstadoVisual_incluye w v p :
  (cargarRamosAprobados w).1 = Returned v →
  (∀ x, includes v x = Returned (p x)) →
  actualizarEstadoVisual w
  = (Returned tt,
     {| document :=
          (λ e, if is_ramo e then (actualizarRamo v e).2 else e) <$> document w;
        localStorage := localStorage w; alerts := alerts w |}).
Proof.
  intros Hv Hp. unfold actualizarEstadoVisual.
  rewrite bind_apply, (cargarRamosAprobados_returned w v Hv).
  unfold ramos_forEach. by rewrite (forEach_ramos_incluye v p _ Hp).
Qed.

Lemma estado_incluye v p X :
  (∀ x, includes v x = Returned (p x)) →
  estado (actualizarRamo v X).2
  = if p (id X) then Aprobado
    else if forallb p (requisitos_de X) then Normal else Bloqueado.
Proof.
  intros Hp. rewrite (actualizarRamo_incluye v p Hp). unfold estado.
  cbn [snd classList].
  pose proof aprobado_bloqueado. pose proof aprobado_no_bloqueado.
  destruct (p (id X)); [|destruct (forallb p (requisitos_de X))].
  - rewrite (proj2 (contains_true _ (js "aprobado"))); [done|].
    rewrite elem_of_remove, elem_of_add. tauto.
  - rewrite (proj2 (contains_false _ (js "aprobado"))),
      (proj2 (contains_false _ (js "bloqueado"))); [done|..];
      repeat rewrite elem_of_remove; tauto.
  - rewrite (proj2 (contains_false _ (js "aprobado"))),
      (proj2 (contains_true _ (js "bloqueado"))); [done|..];
      rewrite elem_of_add, ?elem_of_remove; tauto.
Qed.

Lemma existsb_same_string x vs :
  existsb (same_string x) vs = true ↔ (JStr x ∈ vs).
Proof.
  rewrite existsb_exists. split.
  - intros (v & Hin & Hv). destruct v; try done. cbn in Hv.
    apply bool_decide_eq_true in Hv as ->. by apply list_elem_of_In.
  - intros Hin. exists (JStr x). split; [by apply list_elem_of_In|].
    cbn. by apply bool_decide_eq_true.
Qed.

Lemma forallb_false {A} (p : A → bool) (R : list A) :
  forallb p R = false ↔ ∃ r, r ∈ R ∧ p r = false.
Proof.
  induction R as [|a R IH]; cbn [forallb].
  - split; [done|]. intros (r & Hr & _). by apply elem_of_nil in Hr.
  - rewrite andb_false_iff, IH. split.
    + intros [Ha|(r & Hr & Hpr)]; [exists a | exists r];
        (split; [|done]); [left | by right].
    + intros (r & [->|Hr]%elem_of_cons & Hpr); [by left|right; eauto].
Qed.

(** X4.  With any JSON array stored, entries that are not strings
    included, [actualizarEstadoVisual] returns and a [ramo] is approved
    exactly when its identifier is an entry of the array, blocked exactly
    when it is not and some requirement is no entry either, and normal
    otherwise: entries that are not strings count for nothing. *)
Theorem actualizarEstadoVisual_arreglo w vs i X :
  (cargarRamosAprobados w).1 = Returned (JArr vs) →
  document w !! i = Some X → is_ramo X →
  ∃ w1 X1,
    actualizarEstadoVisual w = (Returned tt, w1) ∧
    document w1 !! i = Some X1 ∧
    (estado X1 = Aprobado ↔ (JStr (id X) ∈ vs)) ∧
    (estado X1 = Bloqueado ↔
       (JStr (id X) ∉ vs) ∧ ∃ r, r ∈ requisitos_de X ∧ JStr r ∉ vs) ∧
    (estado X1 = Normal ↔
       (JStr (id X) ∉ vs) ∧ ∀ r, r ∈ requisitos_de X → JStr r ∈ vs).
Proof.
  intros Hv Hi Hr.
  set (p := λ x, existsb (same_string x) vs).
  assert (∀ x, includes (JArr vs) x = Returned (p x)) as Hp by done.
  eexists _, _.
  split; [by apply (actualizarEstadoVisual_incluye w (JArr vs) p)|].
  cbn [document]. rewrite list_lookup_fmap, Hi. cbn [fmap option_fmap option_map].
  destruct (is_ramo X); [|done]. split; [done|].
  rewrite (estado_incluye _ p X Hp).
  assert (∀ x, p x = true ↔ (JStr x ∈ vs)) as Hpx
    by (intros x; apply existsb_same_string).
  assert (∀ x, p x = false ↔ (JStr x ∉ vs)) as Hnx.
  { intros x. rewrite <- Hpx. by destruct (p x). }
  destruct (p (id X)) eqn:E1.
  { apply Hpx in E1. repeat split; try done; tauto. }
  apply Hnx in E1.
  destruct (forallb p (requisitos_de X)) eqn:E2.
  - rewrite forallb_forall in E2.
    assert (∀ r, r ∈ requisitos_de X → JStr r ∈ vs) as Hall.
    { intros r Hin. by apply Hpx, E2, list_elem_of_In. }
    repeat split; try done.
    intros (_ & r & Hin & Hn). exfalso. by apply Hn, Hall.
  - apply forallb_false in E2 as (r & Hin & Hpr). apply Hnx in Hpr.
    repeat split; try done; [eauto|].
    intros [_ Hall]. exfalso. by apply Hpr, Hall.
Qed.

Lemma actualizarEstadoVisual_arreglo_witness :
  ∃ w1 X1,
    actualizarEstadoVisual pagina_mixta = (Returned tt, w1) ∧
    document w1 !! 1 = Some X1 ∧
    (estado X1 = Aprobado ↔ (JStr (js "B") ∈ [JNum (js "1"); JStr (js "A")])) ∧
    (estado X1 = Bloqueado ↔
       (JStr (js "B") ∉ [JNum (js "1"); JStr (js "A")]) ∧
       ∃ r, r ∈ [js "A"] ∧ JStr r ∉ [JNum (js "1"); JStr (js "A")]) ∧
    (estado X1 = Normal ↔
       (JStr (js "B") ∉ [JNum (js "1"); JStr (js "A")]) ∧
       ∀ r, r ∈ [js "A"] → JStr r ∈ [JNum (js "1"); JStr (js "A")]).
Proof.
  apply (actualizarEstadoVisual_arreglo pagina_mixta
           [JNum (js "1"); JStr (js "A")] 1
           (ramo_ejemplo (js "B") (Some (js "A")))).
  - reflexivity.
  - reflexivity.
  - vm_compute. exact I.
Defined.

(** X5.  With a JSON string stored instead of an array,
    [actualizarEstadoVisual] still returns: [includes] is then the
    substring test of strings, so a [ramo] is approved exactly when its
    identifier occurs inside the stored string, and blocked exactly when
    it does not and some requirement does not either. *)
Theorem actualizarEstadoVisual_cadena w s i X :
  (cargarRamosAprobados w).1 = Returned (JStr s) →
  document w !! i = Some X → is_ramo X →
  ∃ w1 X1,
    actualizarEstadoVisual w = (Returned tt, w1) ∧
    document w1 !! i = Some X1 ∧
    (estado X1 = Aprobado ↔ is_substring (id X) s = true) ∧
    (estado X1 = Bloqueado ↔
       is_substring (id X) s = false ∧
       ∃ r, r ∈ requisitos_de X ∧ is_substring r s = false).
Proof.
  intros Hv Hi Hr.
  set (p := λ x, is_substring x s).
  assert (∀ x, includes (JStr s) x = Returned (p x)) as Hp by done.
  eexists _, _.
  split; [by apply (actualizarEstadoVisual_incluye w (JStr s) p)|].
  cbn [document]. rewrite list_lookup_fmap, Hi. cbn [fmap option_fmap option_map].
  destruct (is_ramo X); [|done]. split; [done|].
  rewrite (estado_incluye _ p X Hp). fold (p (id X)).
  destruct (p (id X)) eqn:E1; [by repeat split; try done; intros [? ?]|].
  destruct (forallb p (requisitos_de X)) eqn:E2.
  - rewrite forallb_forall in E2. repeat split; try done.
    intros (_ & r & Hin & Hn). exfalso.
    apply list_elem_of_In, E2 in Hin. unfold p in Hin. congruence.
  - apply forallb_false in E2 as (r & Hin & Hpr).
    repeat split; try done. eauto.
Qed.

Lemma actualizarEstadoVisual_cadena_witness :
  ∃ w1 X1,
    actualizarEstadoVisual pagina_cadena = (Returned tt, w1) ∧
    document w1 !! 0 = Some X1 ∧
    (estado X1 = Aprobado ↔ is_substring (js "A") (js "xAy") = true) ∧
    (estado X1 = Bloqueado ↔
       is_substring (js "A") (js "xAy") = false ∧
       ∃ r, r ∈ [] ∧ is_substring r (js "xAy") = false).
Proof.
  apply (actualizarEstadoVisual_cadena pagina_cadena (js "xAy") 0
           (ramo_ejemplo (js "A") None)).
  - reflexivity.
  - reflexivity.
  - vm_compute. exact I.
Defined.

(** ** Running [actualizarEstadoVisual] again *)

Lemma actualizarRamo_idem v p e :
  (∀ x, includes v x = Returned (p x)) →
  (actualizarRamo v (actualizarRamo v e).2).2 = (actualizarRamo v e).2.
Proof.
  intros Hp. rewrite (actualizarRamo_incluye v p Hp e). cbn [snd].
  rewrite (actualizarRamo_incluye v p Hp). cbn [snd id classList
    dataset_requisitos textContent].
  change (requisitos_de {| id := id e; classList := _;
                           dataset_requisitos := dataset_requisitos e;
                           textContent := textContent e |})
    with (requisitos_de e).
  f_equal.
  pose proof aprobado_bloqueado. pose proof aprobado_no_bloqueado.
  destruct (p (id e)); [|destruct (forallb p (requisitos_de e))].
  - rewrite add_elem_of by (rewrite elem_of_remove, elem_of_add; tauto).
    apply remove_not_elem_of. rewrite elem_of_remove. tauto.
  - rewrite (remove_not_elem_of _ (js "aprobado"))
      by (rewrite !elem_of_remove; tauto).
    apply remove_not_elem_of. rewrite elem_of_remove. tauto.
  - rewrite (remove_not_elem_of _ (js "aprobado"))
      by (rewrite elem_of_add, elem_of_remove; tauto).
    apply add_elem_of. rewrite elem_of_add. tauto.
Qed.

Lemma actualizarEstadoVisual_TypeError w v :
  (cargarRamosAprobados w).1 = Returned v →
  (∀ x, includes v x = Thrown TypeError) →
  actualizarEstadoVisual w
  = (if existsb is_ramo (document w) then Thrown TypeError else Returned tt, w).
Proof.
  intros Hv Hx. unfold actualizarEstadoVisual.
  rewrite bind_apply, (cargarRamosAprobados_returned w v Hv).
  unfold ramos_forEach. rewrite (forEach_ramos_TypeError v _ Hx).
  by destruct w.
Qed.

Lemma cargarRamosAprobados_almacen w w1 :
  localStorage w1 = localStorage w →
  (cargarRamosAprobados w1).1 = (cargarRamosAprobados w).1.
Proof. intros H. rewrite !cargarRamosAprobados_eq. cbn [fst]. by rewrite H. Qed.

(** X6.  [actualizarEstadoVisual] is idempotent, whatever is stored:
    run on the page it has just left, it ends the same way (returns, or
    throws the same error) and changes nothing more. *)
Theorem actualizarEstadoVisual_idempotente w :
  actualizarEstadoVisual (actualizarEstadoVisual w).2
  = actualizarEstadoVisual w.
Proof.
  destruct ((cargarRamosAprobados w).1) as [v|err] eqn:Hc.
  - destruct (includes_cases v) as [[p Hp]|Hv].
    + rewrite (actualizarEstadoVisual_incluye w v p Hc Hp). cbn [snd].
      rewrite (actualizarEstadoVisual_incluye _ v p);
        [|by rewrite <- Hc; apply cargarRamosAprobados_almacen|done].
      cbn [document localStorage alerts]. do 2 f_equal.
      rewrite <- list_fmap_compose. apply list_fmap_ext. intros _ e _.
      unfold compose.
      destruct (is_ramo e) eqn:Hr; [|by rewrite Hr].
      rewrite (conserva_is_ramo e _ (conserva_ramo v e Hr)), Hr.
      by apply (actualizarRamo_idem v p).
    + rewrite (actualizarEstadoVisual_TypeError w v Hc Hv). cbn [snd].
      by rewrite (actualizarEstadoVisual_TypeError w v Hc Hv).
  - rewrite (actualizarEstadoVisual_lanza w err Hc). cbn [snd].
    by rewrite (actualizarEstadoVisual_lanza w err Hc).
Qed.

(** ** Computations that only read *)

Section SoloLee.
Context {S : Type}.

Lemma solo_lee_ret {A} (a : A) : solo_lee (ret (S:=S) a).
Proof. by intros s. Qed.

Lemma solo_lee_throw {A} err : solo_lee (throw (S:=S) (A:=A) err).
Proof. by intros s. Qed.

Lemma solo_lee_lift {A} (c : Completion A) : solo_lee (lift (S:=S) c).
Proof. by intros s. Qed.

Lemma solo_lee_gets {A} (f : S → A) : solo_lee (gets f).
Proof. by intros s. Qed.

Lemma solo_lee_bind {A B} (m : SE S A) (k : A → SE S B) :
  solo_lee m → (∀ a, solo_lee (k a)) → solo_lee (bind m k).
Proof.
  intros Hm Hk s. rewrite bind_apply. specialize (Hm s).
  destruct (m s) as [[a|err] s1]; cbn [snd] in Hm; subst s1; [apply Hk|done].
Qed.

Lemma solo_lee_every {A} (f : A → SE S bool) l :
  (∀ x, solo_lee (f x)) → solo_lee (every f l).
Proof.
  intros Hf. induction l as [|x l IH]; [apply solo_lee_ret|].
  cbn [every]. apply solo_lee_bind; [done|].
  intros []; [done|apply solo_lee_ret].
Qed.

Lemma solo_lee_filterA {A} (f : A → SE S bool) l :
  (∀ x, solo_lee (f x)) → solo_lee (filterA f l).
Proof.
  intros Hf. induction l as [|x l IH]; [apply solo_lee_ret|].
  cbn [filterA]. apply solo_lee_bind; [done|]. intros b.
  apply solo_lee_bind; [done|]. intros kept. apply solo_lee_ret.
Qed.

Lemma solo_lee_mapA {A B} (f : A → SE S B) l :
  (∀ x, solo_lee (f x)) → solo_lee (mapA f l).
Proof.
  intros Hf. induction l as [|x l IH]; [apply solo_lee_ret|].
  cbn [mapA]. apply solo_lee_bind; [done|]. intros b.
  apply solo_lee_bind; [done|]. intros kept. apply solo_lee_ret.
Qed.

(** After a computation that only reads, either it threw and nothing
    happened, or what follows runs on the same state. *)
Lemma bind_solo_lee {A B} (m : SE S A) (k : A → SE S B) s :
  solo_lee m →
  (∃ err, bind m k s = (Thrown err, s)) ∨ (∃ a, bind m k s = k a s).
Proof.
  intros Hm. rewrite bind_apply. specialize (Hm s).
  destruct (m s) as [[a|err] s1]; cbn [snd] in Hm; subst s1; eauto.
Qed.
End SoloLee.

Lemma solo_lee_cargarRamosAprobados : solo_lee cargarRamosAprobados.
Proof. intros w. by rewrite cargarRamosAprobados_eq. Qed.

(** ** A click, whatever is stored *)

(** The listener on a [ramo] shown blocked: it throws before doing
    anything, or shows one dialog. *)
Lemma manejarClicRamo_bloqueado_casos w X :
  contains (classList X) (js "bloqueado") = true →
  (∃ err, manejarClicRamo X w = (Thrown err, w)) ∨
  (∃ msg, manejarClicRamo X w = alert msg w).
Proof.
  intros Hb. unfold manejarClicRamo. rewrite Hb.
  match goal with |- context [bind ?m ?k w] =>
    destruct (bind_solo_lee m k w) as [H|[requisitos ->]] end.
  { destruct (dataset_requisitos X);
      [apply solo_lee_ret | apply solo_lee_throw]. }
  { by left. }
  match goal with |- context [bind ?m ?k w] =>
    destruct (bind_solo_lee m k w) as [H|[aprobados ->]] end.
  { apply solo_lee_cargarRamosAprobados. }
  { by left. }
  match goal with |- context [bind ?m ?k w] =>
    destruct (bind_solo_lee m k w) as [H|[faltantes ->]] end.
  { apply solo_lee_filterA. intros x.
    apply solo_lee_bind; [apply solo_lee_lift|]. intros b. apply solo_lee_ret. }
  { by left. }
  match goal with |- context [bind ?m ?k w] =>
    destruct (bind_solo_lee m k w) as [H|[nombres ->]] end.
  { apply solo_lee_mapA. intros x.
    apply solo_lee_bind; [apply solo_lee_gets|]. intros b. apply solo_lee_ret. }
  { by left. }
  right. eauto.
Qed.

(** The listener on a [ramo] not shown blocked: it throws before doing
    anything, or saves an array and runs [actualizarEstadoVisual]. *)
Lemma manejarClicRamo_no_bloqueado_casos w X :
  contains (classList X) (js "bloqueado") = false →
  (∃ err, manejarClicRamo X w = (Thrown err, w)) ∨
  (∃ v1, manejarClicRamo X w
         = actualizarEstadoVisual
             {| document := document w;
                localStorage :=
                  <[LOCAL_STORAGE_KEY := JSON.stringify v1]> (localStorage w);
                alerts := alerts w |}).
Proof.
  intros Hb. unfold manejarClicRamo. rewrite Hb.
  match goal with |- context [bind ?m ?k w] =>
    destruct (bind_solo_lee m k w) as [H|[aprobados ->]] end.
  { apply solo_lee_cargarRamosAprobados. }
  { by left. }
  match goal with |- context [bind ?m ?k w] =>
    destruct (bind_solo_lee m k w) as [H|[aprobado ->]] end.
  { apply solo_lee_lift. }
  { by left. }
  match goal with |- context [bind ?m ?k w] =>
    destruct (bind_solo_lee m k w) as [H|[aprobados1 ->]] end.
  { apply solo_lee_lift. }
  { by left. }
  right. by exists aprobados1.
Qed.

(** What the listener leaves alone on a [ramo] shown blocked. *)
Lemma manejarClicRamo_bloqueado_marco w X c w1 :
  contains (classList X) (js "bloqueado") = true →
  manejarClicRamo X w = (c, w1) →
  document w1 = document w ∧
  localStorage w1 = localStorage w ∧
  (alerts w1 = alerts w ∨ ∃ msg, alerts w1 = alerts w ++ [msg]).
Proof.
  intros Hb HX.
  destruct (manejarClicRamo_bloqueado_casos w X Hb) as [[err H]|[msg H]];
    rewrite H in HX; injection HX as _ <-.
  - by repeat split; try left.
  - repeat split. right. by exists msg.
Qed.

(** X7.  A click on a [ramo] whose class list has [bloqueado] writes
    nothing, whatever is stored: the document and the whole store are as
    they were, and at most one dialog was shown. *)
Theorem clic_bloqueado_no_escribe w i X c w1 :
  document w !! i = Some X →
  contains (classList X) (js "bloqueado") = true →
  click i w = Some (c, w1) →
  document w1 = document w ∧
  localStorage w1 = localStorage w ∧
  (alerts w1 = alerts w ∨ ∃ msg, alerts w1 = alerts w ++ [msg]).
Proof.
  intros Hi Hb Hclick.
  destruct (click_inv w i c w1 Hclick) as (X' & Hi' & _ & HX).
  assert (X' = X) as -> by congruence.
  by apply (manejarClicRamo_bloqueado_marco w X c w1).
Qed.

Lemma clic_bloqueado_no_escribe_witness :
  document (pulsar 1 pagina_inicial) = document pagina_inicial ∧
  localStorage (pulsar 1 pagina_inicial) = localStorage pagina_inicial ∧
  (alerts (pulsar 1 pagina_inicial) = alerts pagina_inicial ∨
   ∃ msg, alerts (pulsar 1 pagina_inicial) = alerts pagina_inicial ++ [msg]).
Proof.
  apply (clic_bloqueado_no_escribe pagina_inicial 1
           {| id := js "B"; classList := [js "ramo"; js "bloqueado"];
              dataset_requisitos := Some (js "A");
              textContent := js "Ramo " ++ js "B" |}
           (Returned tt)).
  - reflexivity.
  - reflexivity.
  - reflexivity.
Defined.

(** What the listener leaves alone on any [ramo]. *)
Lemma manejarClicRamo_marco w X c w1 :
  manejarClicRamo X w = (c, w1) →
  (∀ k, k ≠ LOCAL_STORAGE_KEY → localStorage w1 !! k = localStorage w !! k) ∧
  (alerts w1 = alerts w ∨ ∃ msg, alerts w1 = alerts w ++ [msg]) ∧
  Forall2 conserva (document w) (document w1).
Proof.
  intros HX.
  destruct (contains (classList X) (js "bloqueado")) eqn:Hb.
  - destruct (manejarClicRamo_bloqueado_marco w X c w1 Hb HX)
      as (-> & -> & Hal).
    repeat split; [done|]. apply Forall2_conserva_refl.
  - destruct (manejarClicRamo_no_bloqueado_casos w X Hb) as [[err H]|[v1 H]];
      rewrite H in HX.
    + injection HX as _ <-. repeat split; [by left|]. apply Forall2_conserva_refl.
    + destruct (actualizarEstadoVisual_marco _ c w1 HX) as (Hs & Ha & Hd).
      cbn [localStorage alerts document] in *.
      split; [|split; [by left|done]].
      intros k Hk. by rewrite Hs, lookup_insert_ne.
Qed.

(** X8.  Whatever is stored and whichever [ramo] is clicked, the click
    changes no key of the store other than [ramosAprobados], shows at
    most one dialog, and keeps of every element what
    [actualizarEstadoVisual] keeps. *)
Theorem clic_deja_lo_demas w i c w1 :
  click i w = Some (c, w1) →
  (∀ k, k ≠ LOCAL_STORAGE_KEY → localStorage w1 !! k = localStorage w !! k) ∧
  (alerts w1 = alerts w ∨ ∃ msg, alerts w1 = alerts w ++ [msg]) ∧
  Forall2 conserva (document w) (document w1).
Proof.
  intros (X & _ & _ & HX)%click_inv.
  by apply (manejarClicRamo_marco w X c w1).
Qed.

Lemma clic_deja_lo_demas_witness :
  (∀ k, k ≠ LOCAL_STORAGE_KEY →
        localStorage (pulsar 0 pagina_inicial) !! k
        = localStorage pagina_inicial !! k) ∧
  (alerts (pulsar 0 pagina_inicial) = alerts pagina_inicial ∨
   ∃ msg, alerts (pulsar 0 pagina_inicial) = alerts pagina_inicial ++ [msg]) ∧
  Forall2 conserva (document pagina_inicial) (document (pulsar 0 pagina_inicial)).
Proof.
  apply (clic_deja_lo_demas pagina_inicial 0 (Returned tt)). reflexivity.
Defined.

Lemma Forall2_conserva_catalogo doc doc1 :
  Forall2 conserva doc doc1 → item <$> doc1 = item <$> doc.
Proof.
  induction 1 as [|e e1 doc doc1 Hc _ IH]; [done|].
  cbn [fmap list_fmap]. by rewrite (conserva_item e e1 Hc), IH.
Qed.

(** X9.  After any number of clicks, whatever is stored, the catalogue
    is what it was (the same [ramos] at the same places, with the same
    identifiers and requirement lists), no key of the store other than
    [ramosAprobados] has changed, and the dialogs shown before are still
    there, in order, before the new ones. *)
Theorem clics_dejan_lo_demas w w2 :
  clics w w2 →
  catalogo w2 = catalogo w ∧
  (∀ k, k ≠ LOCAL_STORAGE_KEY → localStorage w2 !! k = localStorage w !! k) ∧
  ∃ nuevos, alerts w2 = alerts w ++ nuevos.
Proof.
  induction 1 as [w|w i c w1 w2 Hclick _ (Hcat & Hk & nuevos & Hal)].
  - repeat split. exists []. by rewrite app_nil_r.
  - destruct (click_inv w i c w1 Hclick) as (X & _ & _ & HX).
    destruct (manejarClicRamo_marco w X c w1 HX) as (Hk1 & Hal1 & Hd1).
    split; [|split].
    + rewrite Hcat. unfold catalogo. by apply Forall2_conserva_catalogo.
    + intros k Hne. by rewrite Hk, Hk1.
    + destruct Hal1 as [Heq|[msg Heq]]; rewrite Hal, Heq.
      * by exists nuevos.
      * exists (msg :: nuevos). by rewrite <- app_assoc.
Qed.

Lemma clics_dejan_lo_demas_witness :
  catalogo (pulsar 1 (pulsar 0 pagina_inicial)) = catalogo pagina_inicial ∧
  (∀ k, k ≠ LOCAL_STORAGE_KEY →
        localStorage (pulsar 1 (pulsar 0 pagina_inicial)) !! k
        = localStorage pagina_inicial !! k) ∧
  ∃ nuevos,
    alerts (pulsar 1 (pulsar 0 pagina_inicial)) = alerts pagina_inicial ++ nuevos.
Proof.
  apply (clics_dejan_lo_demas pagina_inicial).
  apply (clics_cons _ 0 (Returned tt) (pulsar 0 pagina_inicial)); [reflexivity|].
  apply (clics_cons _ 1 (Returned tt) (pulsar 1 (pulsar 0 pagina_inicial)));
    [reflexivity|].
  apply clics_nil.
Defined.

(** ** A store the script cannot use *)

Lemma manejarClicRamo_cargar_lanza w X err :
  (cargarRamosAprobados w).1 = Thrown err →
  ∃ err1, manejarClicRamo X w = (Thrown err1, w).
Proof.
  intros Hc.
  assert (cargarRamosAprobados w = (Thrown err, w)) as Hc1.
  { rewrite cargarRamosAprobados_eq in Hc |- *. cbn [fst] in Hc. by rewrite Hc. }
  destruct (contains (classList X) (js "bloqueado")) eqn:Hb.
  - unfold manejarClicRamo. rewrite Hb, bind_apply.
    destruct (dataset_requisitos X) as [text|].
    + rewrite ret_apply, bind_apply, Hc1. by exists err.
    + by exists TypeError.
  - exists err. by apply manejarClicRamo_lanza.
Qed.

(** X10.  When the stored text is not empty and is not JSON, the script
    is stuck: starting it throws [SyntaxError] and changes nothing, every
    click throws, and after any number of clicks the page, the store and
    the dialogs are exactly what they were.  (The empty string is read as
    nothing stored: see [cargarRamosAprobados_eq].) *)
Theorem texto_corrupto_bloquea_todo w text :
  localStorage w !! LOCAL_STORAGE_KEY = Some text →
  text ≠ [] →
  JSON.parse text = None →
  actualizarEstadoVisual w = (Thrown SyntaxError, w) ∧
  (∀ i c w1, click i w = Some (c, w1) → w1 = w ∧ ∃ err, c = Thrown err) ∧
  (∀ w2, clics w w2 → w2 = w).
Proof.
  intros Hk Ht Hp.
  assert ((cargarRamosAprobados w).1 = Thrown SyntaxError) as Hc.
  { rewrite cargarRamosAprobados_eq, Hk, Hp. by destruct text. }
  assert (∀ i c w1, click i w = Some (c, w1) → w1 = w ∧ ∃ err, c = Thrown err)
    as Hclick.
  { intros i c w1 (X & _ & _ & HX)%click_inv.
    destruct (manejarClicRamo_cargar_lanza w X _ Hc) as [err1 H].
    rewrite H in HX. injection HX as <- <-. eauto. }
  split; [by apply actualizarEstadoVisual_lanza|]. split; [done|].
  intros w2 Hclics. induction Hclics as [w|w i c w1 w2 Hcl _ IH]; [done|].
  destruct (Hclick i c w1 Hcl) as [-> _]. by apply IH.
Qed.

Lemma texto_corrupto_bloquea_todo_witness :
  actualizarEstadoVisual pagina_corrupta = (Thrown SyntaxError, pagina_corrupta) ∧
  (∀ i c w1, click i pagina_corrupta = Some (c, w1) →
             w1 = pagina_corrupta ∧ ∃ err, c = Thrown err) ∧
  (∀ w2, clics pagina_corrupta w2 → w2 = pagina_corrupta).
Proof.
  apply (texto_corrupto_bloquea_todo pagina_corrupta (js "{")).
  - reflexivity.
  - discriminate.
  - reflexivity.
Defined.

Lemma no_arreglo_TypeError v x (b : bool) :
  (∀ l, v ≠ JArr l) →
  (if b then filter_distinct v x else push v x) = Thrown TypeError.
Proof.
  intros Hv. destruct v as [| | | |l|]; try (by destruct b). by destruct (Hv l).
Qed.

Lemma manejarClicRamo_no_arreglo w X v :
  (cargarRamosAprobados w).1 = Returned v →
  (∀ l, v ≠ JArr l) →
  contains (classList X) (js "bloqueado") = false →
  manejarClicRamo X w = (Thrown TypeError, w).
Proof.
  intros Hc Hv Hb. unfold manejarClicRamo. rewrite Hb.
  rewrite bind_apply, (cargarRamosAprobados_returned w v Hc).
  rewrite bind_apply, lift_apply.
  destruct (includes v (id X)) as [b|err] eqn:Hin.
  - by rewrite bind_apply, lift_apply, (no_arreglo_TypeError v _ b Hv).
  - destruct v; cbn in Hin; try discriminate; by injection Hin as <-.
Qed.

(** X11.  When what is stored is JSON but no array (a string, a number,
    [null], an object), no click ever saves anything: a click on a [ramo]
    not shown blocked throws [TypeError] and changes nothing, and after
    any click the document and the store are what they were. *)
Theorem clic_sin_arreglo w v i X c w1 :
  (cargarRamosAprobados w).1 = Returned v →
  (∀ l, v ≠ JArr l) →
  document w !! i = Some X →
  click i w = Some (c, w1) →
  document w1 = document w ∧
  localStorage w1 = localStorage w ∧
  (contains (classList X) (js "bloqueado") = false →
   c = Thrown TypeError ∧ w1 = w).
Proof.
  intros Hc Hv Hi Hclick.
  destruct (click_inv w i c w1 Hclick) as (X' & Hi' & _ & HX).
  assert (X' = X) as -> by congruence.
  destruct (contains (classList X) (js "bloqueado")) eqn:Hb.
  - destruct (manejarClicRamo_bloqueado_marco w X c w1 Hb HX) as (? & ? & _).
    by repeat split.
  - rewrite (manejarClicRamo_no_arreglo w X v Hc Hv Hb) in HX.
    injection HX as <- <-. by repeat split.
Qed.

Lemma clic_sin_arreglo_witness :
  document (actualizarEstadoVisual pagina_cadena).2
  = document (actualizarEstadoVisual pagina_cadena).2 ∧
  localStorage (actualizarEstadoVisual pagina_cadena).2
  = localStorage (actualizarEstadoVisual pagina_cadena).2 ∧
  (contains (classList (ramo_ejemplo (js "B") (Some (js "A")))) (js "bloqueado")
   = false →
   Thrown (A:=unit) TypeError = Thrown TypeError ∧
   (actualizarEstadoVisual pagina_cadena).2
   = (actualizarEstadoVisual pagina_cadena).2).
Proof.
  apply (clic_sin_arreglo (actualizarEstadoVisual pagina_cadena).2
           (JStr (js "xAy")) 1
           (ramo_ejemplo (js "B") (Some (js "A")))
           (Thrown TypeError) (actualizarEstadoVisual pagina_cadena).2).
  - reflexivity.
  - discriminate.
  - reflexivity.
  - reflexivity.
Defined.

(** ** One click after another *)

Lemma estado_al_dia_eq l e e1 :
  al_dia l e → al_dia l e1 →
  id e1 = id e → requisitos_de e1 = requisitos_de e →
  estado e1 = estado e.
Proof.
  intros (Ha & Hb & Hn)%estado_al_dia (Ha1 & Hb1 & Hn1)%estado_al_dia Hid Hreq.
  unfold pendiente in *. rewrite Hid in Ha1. rewrite Hid, Hreq in Hb1, Hn1.
  destruct (estado e); [apply Ha1|apply Hb1|apply Hn1]; tauto.
Qed.

Lemma tras_clic_app l x : x ∉ l → tras_clic l x = l ++ [x].
Proof. intros Hx. unfold tras_clic. by rewrite bool_decide_eq_false_2. Qed.

Lemma tras_clic_app_filter l x : x ∉ l → tras_clic (l ++ [x]) x = l.
Proof.
  intros Hx. unfold tras_clic.
  rewrite bool_decide_eq_true_2 by (rewrite elem_of_app, list_elem_of_singleton; tauto).
  rewrite filter_app, filter_cons, decide_False by (intros H; by apply H).
  rewrite filter_nil, app_nil_r. by apply remove_not_elem_of.
Qed.

(** X12.  In a page the script reached, approving a [ramo] and taking it
    back at once undoes the approval: both clicks are accepted, the array
    stored in the end is the array stored before, entry for entry, and
    every [ramo] shows the state it showed before. *)
Theorem aprobar_y_desaprobar w l i X :
  alcanzable w → aprobados_de w l →
  document w !! i = Some X → is_ramo X →
  id X ∉ l → ¬ pendiente l X →
  ∃ w1 w2,
    click i w = Some (Returned tt, w1) ∧
    click i w1 = Some (Returned tt, w2) ∧
    aprobados_de w1 (l ++ [id X]) ∧
    aprobados_de w2 l ∧
    localStorage w2
    = <[LOCAL_STORAGE_KEY := JSON.stringify (JArr (JStr <$> l))]> (localStorage w) ∧
    ∀ j Y, document w !! j = Some Y → is_ramo Y →
           ∃ Y2, document w2 !! j = Some Y2 ∧ estado Y2 = estado Y.
Proof.
  intros Ha Hl Hi Hr Hx Hp.
  pose proof (alcanzable_al_dia w l Ha Hl) as Hs.
  pose proof (clic_aceptado w l i X Hs Hl Hi Hr) as Hc1.
  rewrite (tras_clic_app l (id X) Hx) in Hc1.
  specialize (Hc1 ltac:(tauto)).
  set (l1 := l ++ [id X]) in *.
  set (w1 := {| document := ramo_actualizado l1 <$> document w;
                localStorage := <[LOCAL_STORAGE_KEY :=
                   JSON.stringify (JArr (JStr <$> l1))]> (localStorage w);
                alerts := alerts w |}) in *.
  assert (aprobados_de w1 l1) as Hl1 by apply aprobados_de_guardado.
  assert (sincronizado w1 l1) as Hs1 by apply sincronizado_actualizado.
  assert (document w1 !! i = Some (ramo_actualizado l1 X)) as Hi1.
  { unfold w1. cbn [document]. by rewrite list_lookup_fmap, Hi. }
  assert (is_ramo (ramo_actualizado l1 X)) as Hr1
    by by rewrite ramo_actualizado_is_ramo.
  pose proof (clic_aceptado w1 l1 i _ Hs1 Hl1 Hi1 Hr1) as Hc2.
  rewrite ramo_actualizado_id in Hc2.
  assert (id X ∈ l1) as Hx1
    by (unfold l1; rewrite elem_of_app, list_elem_of_singleton; tauto).
  specialize (Hc2 ltac:(tauto)).
  assert (tras_clic l1 (id X) = l) as Htc by by apply tras_clic_app_filter.
  rewrite Htc in Hc2.
  eexists w1, _. split; [exact Hc1|]. split; [exact Hc2|].
  split; [done|]. split; [apply aprobados_de_guardado|].
  split. { unfold w1. cbn [localStorage]. by rewrite insert_insert_eq. }
  intros j Y Hj HY. cbn [document]. unfold w1. cbn [document].
  rewrite !list_lookup_fmap, Hj.
  eexists. split; [reflexivity|].
  apply (estado_al_dia_eq l).
  - by apply (sincronizado_lookup w l j).
  - apply ramo_actualizado_al_dia. by rewrite ramo_actualizado_is_ramo.
  - by rewrite !ramo_actualizado_id.
  - by rewrite !ramo_actualizado_requisitos.
Qed.

Lemma aprobar_y_desaprobar_witness :
  ∃ w1 w2,
    click 0 pagina_inicial = Some (Returned tt, w1) ∧
    click 0 w1 = Some (Returned tt, w2) ∧
    aprobados_de w1 ([] ++ [js "A"]) ∧
    aprobados_de w2 [] ∧
    localStorage w2
    = <[LOCAL_STORAGE_KEY := JSON.stringify (JArr (JStr <$> []))]>
        (localStorage pagina_inicial) ∧
    ∀ j Y, document pagina_inicial !! j = Some Y → is_ramo Y →
           ∃ Y2, document w2 !! j = Some Y2 ∧ estado Y2 = estado Y.
Proof.
  apply (aprobar_y_desaprobar pagina_inicial [] 0 (ramo_ejemplo (js "A") None)).
  - apply (alcanzable_inicio (pagina_ejemplo ∅) []); reflexivity.
  - reflexivity.
  - reflexivity.
  - vm_compute. exact I.
  - apply not_elem_of_nil.
  - intros H. apply Exists_nil in H. exact H.
Defined.





(** ** Requirements that can never be met *)

Section Cerrado.
Variables (w0 : World) (D : JSString → Prop).
(** every [ramo] whose identifier is in [D] requires an identifier in [D] *)
Hypothesis Hcerrado :
  ∀ j x R, catalogo w0 !! j = Some (Some (x, R)) → D x → ∃ r, r ∈ R ∧ D r.

Lemma cerrado_bloqueado w l j Z :
  catalogo w = catalogo w0 →
  (∀ z, z ∈ l → ¬ D z) →
  document w !! j = Some Z → is_ramo Z → D (id Z) →
  (id Z ∉ l) ∧ pendiente l Z.
Proof using Hcerrado.
  intros Hcat HD Hj HZ HDZ. split; [intros Hin; by apply (HD _ Hin)|].
  pose proof (catalogo_ramo w j Z Hj HZ) as Hc. rewrite Hcat in Hc.
  destruct (Hcerrado j _ _ Hc HDZ) as (r & Hr & HDr).
  apply pendiente_exists. exists r. split; [done|].
  intros Hin. by apply (HD _ Hin).
Qed.

Lemma cerrado_click w l i c w1 :
  catalogo w = catalogo w0 →
  sincronizado w l → aprobados_de w l → (∀ z, z ∈ l → ¬ D z) →
  click i w = Some (c, w1) →
  catalogo w1 = catalogo w0 ∧
  ∃ l1, sincronizado w1 l1 ∧ aprobados_de w1 l1 ∧ (∀ z, z ∈ l1 → ¬ D z).
Proof using Hcerrado.
  intros Hcat Hs Hl HD Hclick.
  destruct (click_inv w i c w1 Hclick) as (Z & Hi & HZ & _).
  destruct (decide ((id Z ∉ l) ∧ pendiente l Z)) as [[Hz Hp]|Hn].
  - rewrite (clic_rechazado w l i Z) in Hclick by done.
    injection Hclick as _ <-. split; [done|]. exists l.
    split; [done|]. split; [by apply (aprobados_de_almacen w)|done].
  - rewrite (clic_aceptado w l i Z) in Hclick by done.
    injection Hclick as _ <-. split; [by rewrite catalogo_actualizado|].
    exists (tras_clic l (id Z)).
    split; [apply sincronizado_actualizado|].
    split; [apply aprobados_de_guardado|].
    intros z [Hz| ->]%elem_of_tras_clic; [by apply HD|].
    intros HDZ. apply Hn. by apply (cerrado_bloqueado w l i Z).
Qed.

Lemma cerrado_clics w w2 :
  clics w w2 →
  ∀ l, catalogo w = catalogo w0 →
       sincronizado w l → aprobados_de w l → (∀ z, z ∈ l → ¬ D z) →
  catalogo w2 = catalogo w0 ∧
  ∃ l2, sincronizado w2 l2 ∧ aprobados_de w2 l2 ∧ (∀ z, z ∈ l2 → ¬ D z).
Proof using Hcerrado.
  induction 1 as [w|w i c w1 w2 Hclick _ IH]; intros l Hcat Hs Hl HD.
  - split; [done|]. by exists l.
  - destruct (cerrado_click w l i c w1 Hcat Hs Hl HD Hclick)
      as (Hcat1 & l1 & Hs1 & Hl1 & HD1).
    by apply (IH l1).
Qed.
End Cerrado.

(** X15.  Requirements that go round in a circle are never unlocked.
    Let [D] be identifiers such that every [ramo] with an identifier in
    [D] requires some identifier in [D] (a cycle, a [ramo] that requires
    itself, a requirement that no [ramo] is), none of them stored as
    completed when the script starts.  Then after any number of clicks
    none of them is completed and every [ramo] with an identifier in [D]
    is blocked. *)
Theorem ciclo_bloqueado_siempre w l (D : JSString → Prop) :
  aprobados_de w l →
  (∀ j x R, catalogo w !! j = Some (Some (x, R)) → D x → ∃ r, r ∈ R ∧ D r) →
  (∀ z, z ∈ l → ¬ D z) →
  ∃ w1,
    actualizarEstadoVisual w = (Returned tt, w1) ∧
    ∀ w2, clics w1 w2 →
      ∃ l2, aprobados_de w2 l2 ∧
            (∀ z, z ∈ l2 → ¬ D z) ∧
            ∀ j Z, document w2 !! j = Some Z → is_ramo Z → D (id Z) →
                   estado Z = Bloqueado.
Proof.
  intros Hl Hcerrado HD. eexists.
  split; [by apply actualizarEstadoVisual_strings|].
  intros w2 Hclics.
  destruct (cerrado_clics w D Hcerrado _ w2 Hclics l) as (Hcat & l2 & Hs2 & Hl2 & HD2).
  - by rewrite catalogo_actualizado.
  - apply sincronizado_actualizado.
  - by apply (aprobados_de_almacen w).
  - done.
  - exists l2. split; [done|]. split; [done|].
    intros j Z Hj HZ HDZ.
    apply (estado_al_dia l2 Z (sincronizado_lookup w2 l2 j Z Hs2 Hj HZ)).
    by apply (cerrado_bloqueado w D Hcerrado w2 l2 j Z).
Qed.

Lemma ciclo_bloqueado_siempre_witness :
  ∃ w1,
    actualizarEstadoVisual pagina_ciclo = (Returned tt, w1) ∧
    ∀ w2, clics w1 w2 →
      ∃ l2, aprobados_de w2 l2 ∧
            (∀ z, z ∈ l2 → ¬ (z ∈ [js "A"; js "B"])) ∧
            ∀ j Z, document w2 !! j = Some Z → is_ramo Z →
                   id Z ∈ [js "A"; js "B"] → estado Z = Bloqueado.
Proof.
  apply (ciclo_bloqueado_siempre pagina_ciclo [] (λ z, z ∈ [js "A"; js "B"])).
  - reflexivity.
  - intros [|[|j]] x R H _; [| |discriminate H].
    + injection H as <- <-. exists (js "B"). split; by_decision.
    + injection H as <- <-. exists (js "A"). split; by_decision.
  - intros z Hz. by apply elem_of_nil in Hz.
Defined.

(** ** What clicks put in the store *)

Lemma solo_catalogo_click w l (l0 : list JSString) i c w1 :
  sincronizado w l → aprobados_de w l →
  (∀ z, z ∈ l → z ∈ l0 ∨ en_catalogo w z) →
  click i w = Some (c, w1) →
  catalogo w1 = catalogo w ∧
  ∃ l1, sincronizado w1 l1 ∧ aprobados_de w1 l1 ∧
        (∀ z, z ∈ l1 → z ∈ l0 ∨ en_catalogo w z).
Proof.
  intros Hs Hl Hsub Hclick.
  destruct (click_inv w i c w1 Hclick) as (Z & Hi & HZ & _).
  destruct (decide ((id Z ∉ l) ∧ pendiente l Z)) as [[Hz Hp]|Hn].
  - rewrite (clic_rechazado w l i Z) in Hclick by done.
    injection Hclick as _ <-. split; [done|]. exists l.
    split; [done|]. split; [by apply (aprobados_de_almacen w)|done].
  - rewrite (clic_aceptado w l i Z) in Hclick by done.
    injection Hclick as _ <-. split; [by rewrite catalogo_actualizado|].
    exists (tras_clic l (id Z)).
    split; [apply sincronizado_actualizado|].
    split; [apply aprobados_de_guardado|].
    intros z [Hz| ->]%elem_of_tras_clic; [by apply Hsub|].
    right. exists i, (requisitos_de Z). by apply catalogo_ramo.
Qed.

Lemma solo_catalogo_clics w0 (l0 : list JSString) wa w2 :
  clics wa w2 →
  catalogo wa = catalogo w0 →
  ∀ l1, sincronizado wa l1 → aprobados_de wa l1 →
        (∀ z, z ∈ l1 → z ∈ l0 ∨ en_catalogo w0 z) →
  ∃ l2, aprobados_de w2 l2 ∧ ∀ z, z ∈ l2 → z ∈ l0 ∨ en_catalogo w0 z.
Proof.
  induction 1 as [wa|wa i c wb w2 Hclick _ IH]; intros Hcat l1 Hs Hl Hsub.
  - by exists l1.
  - destruct (solo_catalogo_click wa l1 l0 i c wb Hs Hl)
      as (Hcb & lb & Hsb & Hlb & Hsubb); [|done|].
    + intros z Hz. destruct (Hsub z Hz) as [?|(j & R & HjR)]; [by left|right].
      exists j, R. by rewrite Hcat.
    + apply (IH (eq_trans Hcb Hcat) lb Hsb Hlb).
      intros z Hz. destruct (Hsubb z Hz) as [?|(j & R & HjR)]; [by left|right].
      exists j, R. by rewrite <- Hcat.
Qed.

(** X16.  Clicks only ever store identifiers of [ramos]: in a page the
    script reached, after any number of clicks every identifier in the
    stored array was in it before the clicks or is the identifier of a
    [ramo] of the page.  Identifiers of nothing may be loaded, but are
    never added. *)
Theorem clics_solo_agregan_ramos w l w2 :
  alcanzable w → aprobados_de w l →
  clics w w2 →
  ∃ l2, aprobados_de w2 l2 ∧ ∀ z, z ∈ l2 → z ∈ l ∨ en_catalogo w z.
Proof.
  intros Ha Hl Hclics.
  pose proof (alcanzable_al_dia w l Ha Hl) as Hs.
  apply (solo_catalogo_clics w l w w2 Hclics eq_refl l Hs Hl).
  intros z Hz. by left.
Qed.

Lemma clics_solo_agregan_ramos_witness :
  ∃ l2, aprobados_de (pulsar 1 (pulsar 0 pagina_inicial)) l2 ∧
        ∀ z, z ∈ l2 → z ∈ [] ∨ en_catalogo pagina_inicial z.
Proof.
  apply (clics_solo_agregan_ramos pagina_inicial []).
  - apply (alcanzable_inicio (pagina_ejemplo ∅) []); reflexivity.
  - reflexivity.
  - apply (clics_cons _ 0 (Returned tt) (pulsar 0 pagina_inicial)); [reflexivity|].
    apply (clics_cons _ 1 (Returned tt) (pulsar 1 (pulsar 0 pagina_inicial)));
      [reflexivity|].
    apply clics_nil.
Defined.

(** X17.  The first visit: with nothing stored under [ramosAprobados],
    [actualizarEstadoVisual] returns and leaves no [ramo] approved; a
    [ramo] with no requirement is normal and every other [ramo] is
    blocked. *)
Theorem primera_visita w :
  localStorage w !! LOCAL_STORAGE_KEY = None →
  ∃ w1,
    actualizarEstadoVisual w = (Returned tt, w1) ∧
    ∀ i X, document w !! i = Some X → is_ramo X →
      ∃ X1, document w1 !! i = Some X1 ∧
            estado X1 = match requisitos_de X with
                        | [] => Normal
                        | _ :: _ => Bloqueado
                        end.
Proof.
  intros Hk.
  assert (aprobados_de w []) as Hl.
  { unfold aprobados_de. by rewrite cargarRamosAprobados_eq, Hk. }
  eexists. split; [by apply actualizarEstadoVisual_strings|].
  intros i X Hi HX. cbn [document]. rewrite list_lookup_fmap, Hi.
  eexists. split; [reflexivity|].
  destruct (estado_al_dia _ _ (ramo_actualizado_al_dia [] X HX)) as (_ & HB & HN).
  rewrite ramo_actualizado_id in HB, HN.
  unfold pendiente in HB, HN. rewrite ramo_actualizado_requisitos in HB, HN.
  destruct (requisitos_de X) as [|r R].
  - apply HN. split; [apply not_elem_of_nil|]. by intros H%Exists_nil.
  - apply HB. split; [apply not_elem_of_nil|]. left. apply not_elem_of_nil.
Qed.

Lemma primera_visita_witness :
  ∃ w1,
    actualizarEstadoVisual (pagina_ejemplo ∅) = (Returned tt, w1) ∧
    ∀ i X, document (pagina_ejemplo ∅) !! i = Some X → is_ramo X →
      ∃ X1, document w1 !! i = Some X1 ∧
            estado X1 = match requisitos_de X with
                        | [] => Normal
                        | _ :: _ => Bloqueado
                        end.
Proof.
  apply (primera_visita (pagina_ejemplo ∅)). reflexivity.
Defined.
